(** * WattCast: the net-load-error (NLE) evaluation loop of [bin/nle.py]

    A shallow embedding of the receding-horizon battery dispatch of
    [bin/nle.py]: the optimisation model built by [run_opt], the simulation
    loop [run_operations], the ex-post cost [calculate_operational_costs] and
    the orchestration [run_nle].

    Numbers.  The program computes on Python/numpy floats (binary64).  They
    are embedded as exact rationals [Q]; comparisons, [min] and [max] are the
    program's, arithmetic is exact, so that a statement about sums, products
    or quotients is a statement of exact arithmetic, which the floats follow
    up to rounding.  The non-finite floats (NaN, inf) have no rational
    counterpart.  Where the program would produce one (a division by zero, a
    missing cell of a join, the maximum of an empty column) it raises
    nothing and goes on with it; the embedding does not follow it there and
    marks the place with the outcome [NonFinite].  The section on binary64
    gives the float versions of the three computations concerned (the cost,
    the scaling and the join) and shows on examples where they part from
    the rationals.

    The solver.  [opt.solve] hands the model to an external solver.  It is a
    parameter of the embedding, a function from the model's parameters to the
    values of its variables, and theorems that need it assume only that what
    it returns satisfies the constraints the model declares. *)

From Stdlib Require Import String Ascii.
From Stdlib Require Import QArith Qminmax List Lia Bool Lqa ZArith.
From Stdlib Require Import Qabs Sorted.
From Stdlib Require Import PrimFloat.
Import ListNotations.
Open Scope Q_scope.

(** ** Outcomes *)

Inductive exn : Type :=
| IndexError
| KeyError
| ValueError
| SolverError
| NonFinite.

Inductive result (A : Type) : Type :=
| Ok (a : A)
| Raise (e : exn).

Arguments Ok {A} a.
Arguments Raise {A} e.

Definition bind {A B : Type} (r : result A) (k : A -> result B) : result B :=
  match r with
  | Ok a => k a
  | Raise e => Raise e
  end.

Notation "x <- r ;; k" := (bind r (fun x => k))
  (at level 61, r at next level, right associativity).

Definition of_option {A : Type} (e : exn) (o : option A) : result A :=
  match o with
  | Some a => Ok a
  | None => Raise e
  end.

Fixpoint mapM {A B : Type} (f : A -> result B) (l : list A) : result (list B) :=
  match l with
  | [] => Ok []
  | a :: r => b <- f a ;; bs <- mapM f r ;; Ok (b :: bs)
  end.

(** ** Python's comparisons, [min] and [max] *)

Definition Qltb (a b : Q) : bool := negb (Qle_bool b a).

(** [min(a, b)]: the first argument unless the second is smaller. *)
Definition py_min (a b : Q) : Q := if Qltb b a then b else a.

(** [max] of a sequence keeps the first of the largest elements. *)
Fixpoint max_from (acc : Q) (l : list Q) : Q :=
  match l with
  | [] => acc
  | x :: r => max_from (if Qltb acc x then x else acc) r
  end.

Fixpoint min_from (acc : Q) (l : list Q) : Q :=
  match l with
  | [] => acc
  | x :: r => min_from (if Qltb x acc then x else acc) r
  end.

(** The builtin [max(list)]: [ValueError] on the empty list. *)
Definition py_max (l : list Q) : result Q :=
  match l with
  | [] => Raise ValueError
  | x :: r => Ok (max_from x r)
  end.

(** ** Tables

    A [DataFrame] is read by position only ([iloc]); it is embedded as the
    list of its columns, in positional order. *)

Definition DataFrame : Type := list (list Q).

(** [df.iloc[:, j].values.tolist()] *)
Definition iloc_col (df : DataFrame) (j : nat) : result (list Q) :=
  of_option IndexError (nth_error df j).

(** [df.iloc[[i], [j]].values.flatten()[0]] *)
Definition iloc_cell (df : DataFrame) (i j : nat) : result Q :=
  col <- iloc_col df j ;; of_option IndexError (nth_error col i).

(** ** Configuration *)

(** Modelled from the spec: the class [Config] of [utils/model_utils] is not
    part of the sources at hand; the record has the fields that [nle.py]
    reads from it, which are the fields the specification lists. *)
Record Config : Type := mkConfig {
  bat_size_kwh : Q;
  bat_efficiency : Q;
  bat_max_power : Q;
  bat_end_soc_weight : Q;
  peak_cost : Q;
  peak_init : Q;
  bat_initial_soc : Q
}.

(** The ranges the specification gives for a configuration. *)
Definition valid_config (c : Config) : Prop :=
  0 <= bat_size_kwh c /\
  0 < bat_efficiency c /\ bat_efficiency c <= 1 /\
  0 < bat_max_power c /\
  0 <= bat_end_soc_weight c /\
  0 < peak_cost c /\
  0 <= peak_init c /\
  0 <= bat_initial_soc c /\ bat_initial_soc c <= 1.

(** ** The optimisation model of [run_opt] *)

(** The parameters of the model: [m.T] is [range(len(load_forecast))]. *)
Record Model : Type := mkModel {
  demand : list Q;
  bss_energy_start : Q;
  monthly_peak : Q;
  bss_size : Q;
  bss_eff : Q;
  bss_max_pow : Q;
  bss_end_soc : Q;
  m_peak_cost : Q
}.

Definition T_len (m : Model) : nat := length (demand m).

Definition T (m : Model) : list nat := seq 0 (T_len m).

(** The values of the model's variables; the indexed ones are read at the
    indices of [m.T] only. *)
Record Vars : Type := mkVars {
  net_load : nat -> Q;
  peak : Q;
  dev_peak_plus : Q;
  dev_peak_minus : Q;
  bss_p_ch : nat -> Q;
  bss_en : nat -> Q
}.

Definition build_model (load_forecast : list Q) (bss_energy pk : Q)
    (config : Config) : Model :=
  {| demand := load_forecast;
     bss_energy_start := bss_energy;
     monthly_peak := pk;
     bss_size := bat_size_kwh config;
     bss_eff := bat_efficiency config;
     bss_max_pow := bat_max_power config;
     bss_end_soc := bat_end_soc_weight config;
     m_peak_cost := peak_cost config |}.

Definition demand_at (m : Model) (t : nat) : Q := nth t (demand m) 0.

Section Constraints.
Variable m : Model.
Variable v : Vars.

Definition energy_balance (t : nat) : Prop :=
  net_load v t == bss_eff m * bss_p_ch v t + demand_at m t.

Definition operation_peak (t : nat) : Prop :=
  net_load v t <= peak v.

Definition relevant_peak : Prop :=
  peak v - monthly_peak m == dev_peak_plus v - dev_peak_minus v.

Definition bat_soc (t : nat) : Prop :=
  match t with
  | O => bss_en v t == bss_energy_start m + bss_p_ch v t
  | S t' => bss_en v t == bss_en v t' + bss_p_ch v t
  end.

Definition bat_lim_energy (t : nat) : Prop :=
  bss_en v t <= bss_size m.

Definition bat_lim_power_pos (t : nat) : Prop :=
  bss_p_ch v t <= bss_max_pow m.

Definition bat_lim_power_neg (t : nat) : Prop :=
  - bss_max_pow m <= bss_p_ch v t.

(** The domains of the variables: [NonNegativeReals] for [peak], the two
    deviations and [bss_en]. *)
Definition domains : Prop :=
  0 <= peak v /\ 0 <= dev_peak_plus v /\ 0 <= dev_peak_minus v /\
  forall t, (t < T_len m)%nat -> 0 <= bss_en v t.

Definition feasible : Prop :=
  domains /\ relevant_peak /\
  forall t, (t < T_len m)%nat ->
    energy_balance t /\ operation_peak t /\ bat_soc t /\
    bat_lim_energy t /\ bat_lim_power_pos t /\ bat_lim_power_neg t.

(** The same conditions as a test. *)
Definition constraints_at (t : nat) : bool :=
  Qeq_bool (net_load v t) (bss_eff m * bss_p_ch v t + demand_at m t) &&
  Qle_bool (net_load v t) (peak v) &&
  match t with
  | O => Qeq_bool (bss_en v t) (bss_energy_start m + bss_p_ch v t)
  | S t' => Qeq_bool (bss_en v t) (bss_en v t' + bss_p_ch v t)
  end &&
  Qle_bool (bss_en v t) (bss_size m) &&
  Qle_bool (bss_p_ch v t) (bss_max_pow m) &&
  Qle_bool (- bss_max_pow m) (bss_p_ch v t) &&
  Qle_bool 0 (bss_en v t).

Definition feasibleb : bool :=
  Qle_bool 0 (peak v) && Qle_bool 0 (dev_peak_plus v) &&
  Qle_bool 0 (dev_peak_minus v) &&
  Qeq_bool (peak v - monthly_peak m) (dev_peak_plus v - dev_peak_minus v) &&
  forallb constraints_at (T m).
End Constraints.

(** The rule [cost] of the objective.  It reads [m.bss_en[len(m.T) - 1]]
    when the model is built, which is index [-1], a [KeyError], on an empty
    [m.T]. *)
Definition cost (m : Model) : result (Vars -> Q) :=
  match T_len m with
  | O => Raise KeyError
  | S last =>
      Ok (fun v =>
        let terminal_cost_weight := bss_end_soc m in
        let final_soc := bss_en v last in
        let terminal_cost :=
          terminal_cost_weight * (final_soc - bss_energy_start m) ^ 2 in
        let above_peak_costs :=
          (dev_peak_plus v + monthly_peak m) * m_peak_cost m in
        let below_peak_reward :=
          (dev_peak_minus v + monthly_peak m) * m_peak_cost m in
        let peak_costs := above_peak_costs + below_peak_reward in
        peak_costs + terminal_cost)
  end.

(** The external solver.  [None] stands for a solve that yields no values:
    the call raises, or it loads no solution and leaves every variable
    unset, on which the arithmetic of the caller raises. *)
Definition Solver : Type := Model -> option Vars.

(** What the solver is trusted for: the values satisfy the constraints. *)
Definition solver_sound (solver : Solver) : Prop :=
  forall m v, solver m = Some v -> feasible m v.

(** A minimiser of the objective among the feasible points. *)
Definition optimal (m : Model) (v : Vars) : Prop :=
  feasible m v /\
  exists obj, cost m = Ok obj /\ forall v', feasible m v' -> obj v <= obj v'.

(** The dict [sp] that [run_opt] returns. *)
Record StepDecision : Type := mkStep {
  sp_net_load : Q;
  sp_bss_p_ch : Q;
  sp_bss_en : Q
}.

(** The rows of [res_df], one per index of [m.T]. *)
Definition res_df (m : Model) (v : Vars) : list StepDecision :=
  map (fun t => mkStep (net_load v t) (bss_p_ch v t) (bss_en v t)) (T m).

Definition run_opt (solver : Solver) (load_forecast : list Q)
    (bss_energy pk : Q) (config : Config) : result StepDecision :=
  let m := build_model load_forecast bss_energy pk config in
  _ <- cost m ;;
  v <- of_option SolverError (solver m) ;;
  of_option IndexError (nth_error (res_df m v) 1).

(** ** The simulation loop of [run_operations] *)

(** The dict [set_point] after its [update]: the three entries of the
    decision and the four realised ones. *)
Record Row : Type := mkRow {
  row_net_load : Q;
  row_bss_p_ch : Q;
  row_bss_en : Q;
  row_load : Q;
  row_opr_net_load : Q;
  row_peak : Q;
  row_forecast : Q
}.

(** [operations]: a dict from the realised time index to its row, in
    insertion order. *)
Definition Operations : Type := list (nat * Row).

(** [d.update({k: x})]: replaces the value of a key that is present, appends
    the entry otherwise. *)
Fixpoint dict_update (d : Operations) (k : nat) (x : Row) : Operations :=
  match d with
  | [] => [(k, x)]
  | (k', x') :: r =>
      if Nat.eqb k' k then (k, x) :: r else (k', x') :: dict_update r k x
  end.

Definition keys (d : Operations) : list nat := map fst d.

(** The local state of the loop. *)
Record SimState : Type := mkState {
  st_peak : Q;
  st_energy : Q;
  st_operations : Operations
}.

Definition init_state (config : Config) : SimState :=
  {| st_peak := peak_init config;
     st_energy := bat_size_kwh config * bat_initial_soc config;
     st_operations := [] |}.

Definition enumerate {A : Type} (l : list A) : list (nat * A) :=
  combine (seq 0 (length l)) l.

Section Simulator.
Variable solver : Solver.
Variable dfs_mpc : list DataFrame.
Variable config : Config.

(** The peak after a step: touched only when the realised net load is
    above it. *)
Definition update_peak (pk nl : Q) (next : DataFrame) : result Q :=
  if Qltb pk nl then
    col <- iloc_col next 0 ;;
    mx <- py_max col ;;
    Ok (py_min nl mx)
  else Ok pk.

(** One iteration of the loop, at index [t] on the window [df_mpc]. *)
Definition step (st : SimState) (t : nat) (df_mpc : DataFrame)
    : result SimState :=
  load_forecast <- iloc_col df_mpc 0 ;;
  set_point <- run_opt solver load_forecast (st_energy st) (st_peak st)
                 config ;;
  let set_point_time := S t in
  next <- of_option IndexError (nth_error dfs_mpc set_point_time) ;;
  load_set_point_time <- iloc_cell next 0 1 ;;
  let nl := load_set_point_time + sp_bss_p_ch set_point in
  pk <- update_peak (st_peak st) nl next ;;
  forecast <- of_option IndexError (nth_error load_forecast 0) ;;
  let row :=
    {| row_net_load := sp_net_load set_point;
       row_bss_p_ch := sp_bss_p_ch set_point;
       row_bss_en := sp_bss_en set_point;
       row_load := load_set_point_time;
       row_opr_net_load := nl;
       row_peak := pk;
       row_forecast := forecast |} in
  Ok {| st_peak := pk;
        st_energy := row_bss_en row;
        st_operations := dict_update (st_operations st) set_point_time row |}.

Fixpoint loop (items : list (nat * DataFrame)) (st : SimState)
    : result SimState :=
  match items with
  | [] => Ok st
  | (t, df_mpc) :: rest => st' <- step st t df_mpc ;; loop rest st'
  end.

(** The state when the loop over [enumerate(dfs_mpc[:-1])] ends. *)
Definition run_operations_state : result SimState :=
  loop (enumerate (removelast dfs_mpc)) (init_state config).

(** The state after the first [k] iterations. *)
Definition state_after (k : nat) : result SimState :=
  loop (firstn k (enumerate (removelast dfs_mpc))) (init_state config).

(** [pd.DataFrame(operations).T]: one row per key, in the dict's order. *)
Definition run_operations : result Operations :=
  st <- run_operations_state ;; Ok (st_operations st).
End Simulator.

(** ** The cost of a trace: [calculate_operational_costs] *)

Record CostResults : Type := mkCost { total_cost : Q }.

(** [df_operations["opr_net_load"]]: a frame built from an empty dict has no
    column, and the lookup is a [KeyError]. *)
Definition column_opr_net_load (df_operations : Operations) : result (list Q) :=
  match df_operations with
  | [] => Raise KeyError
  | _ => Ok (map (fun kr => row_opr_net_load (snd kr)) df_operations)
  end.

(** [Series.max()]; of no value at all it is NaN. *)
Definition series_max (l : list Q) : result Q :=
  match l with
  | [] => Raise NonFinite
  | x :: r => Ok (max_from x r)
  end.

Definition series_min (l : list Q) : result Q :=
  match l with
  | [] => Raise NonFinite
  | x :: r => Ok (min_from x r)
  end.

Definition calculate_operational_costs (df_operations : Operations)
    (config : Config) : result CostResults :=
  col <- column_opr_net_load df_operations ;;
  mx <- series_max col ;;
  let peak_penalty := mx * peak_cost config in
  Ok {| total_cost := peak_penalty |}.

(** ** The orchestration: [run_nle] *)

(** A univariate series as [pd_dataframe()] shows it: the time index and the
    value of each row.  The time index of a series has no duplicate. *)
Definition TimeSeries : Type := list (Z * Q).

Definition values (s : TimeSeries) : list Q := map snd s.

Fixpoint lookup (s : TimeSeries) (i : Z) : option Q :=
  match s with
  | [] => None
  | (j, x) :: r => if Z.eqb j i then Some x else lookup r i
  end.

(** The column that [.join(gt, how="left")] adds to a forecast: the ground
    truth at each time index of the forecast, NaN where it has none.  The
    program goes on with the NaN; the embedding stops at [NonFinite]
    ([join_left_nan] below is the column with its missing cells). *)
Definition join_left (ts_forecast gt : TimeSeries) : result (list Q) :=
  mapM (fun ix => of_option NonFinite (lookup gt (fst ix))) ts_forecast.

(** One cell of [(df - gt_min) / (gt_max - gt_min)], in exact arithmetic.
    The program makes no test before it divides and raises nothing: the
    quotient of a float by zero is inf or NaN, with which it goes on; the
    embedding stops at [NonFinite] ([scale_b64] below is the quotient of
    the floats). *)
Definition scale (gt_min gt_max : result Q) (x : Q) : result Q :=
  mn <- gt_min ;;
  mx <- gt_max ;;
  if Qeq_bool (mx - mn) 0 then Raise NonFinite
  else Ok ((x - mn) / (mx - mn)).

Definition scale_frame (gt_min gt_max : result Q) (df : DataFrame)
    : result DataFrame :=
  mapM (mapM (scale gt_min gt_max)) df.

Section Orchestrator.
Variable solver : Solver.
Variable nle_config : Config.
(** [eval_dict[horizon][season][0][model]] and
    [eval_dict[horizon][season][2]] *)
Variable ts_list : list TimeSeries.
Variable gt : TimeSeries.

Definition gt_max : result Q := series_max (values gt).
Definition gt_min : result Q := series_min (values gt).

(** A window of the baseline run: forecast, truth and truth again are
    scaled, then [.iloc[:, 1:]] drops the forecast. *)
Definition window_gt (ts_forecast : TimeSeries) : result DataFrame :=
  g <- join_left ts_forecast gt ;;
  df <- scale_frame gt_min gt_max [values ts_forecast; g; g] ;;
  Ok (tl df).

(** A window of the model run: forecast and truth, scaled. *)
Definition window_model (ts_forecast : TimeSeries) : result DataFrame :=
  g <- join_left ts_forecast gt ;;
  scale_frame gt_min gt_max [values ts_forecast; g].

Definition run_nle : result Q :=
  dfs_mpc_gt <- mapM window_gt ts_list ;;
  df_operations_gt <- run_operations solver dfs_mpc_gt nle_config ;;
  costs_gt <- calculate_operational_costs df_operations_gt nle_config ;;
  dfs_mpc <- mapM window_model ts_list ;;
  df_operations <- run_operations solver dfs_mpc nle_config ;;
  costs <- calculate_operational_costs df_operations nle_config ;;
  let nle_score := total_cost costs - total_cost costs_gt in
  Ok nle_score.
End Orchestrator.

(** ** Concrete solvers

    A dispatch schedule [p], the charge power at each index, determines the
    other variables through the equality constraints; [peak] is the least
    value the inequalities allow that is not below the incoming peak. *)

Fixpoint energy_after (start : Q) (p : nat -> Q) (t : nat) : Q :=
  match t with
  | O => start + p O
  | S t' => energy_after start p t' + p t
  end.

Definition schedule_vars (p : nat -> Q) (m : Model) : Vars :=
  let nl := fun t => bss_eff m * p t + demand_at m t in
  let pk := max_from (monthly_peak m) (0 :: map nl (T m)) in
  {| net_load := nl;
     peak := pk;
     dev_peak_plus := pk - monthly_peak m;
     dev_peak_minus := 0;
     bss_p_ch := p;
     bss_en := energy_after (bss_energy_start m) p |}.

(** Answers with the schedule's values where they satisfy the constraints,
    and with nothing elsewhere. *)
Definition schedule_solver (p : nat -> Q) : Solver :=
  fun m =>
    let v := schedule_vars p m in
    if feasibleb m v then Some v else None.

(** The battery is left alone. *)
Definition idle : nat -> Q := fun _ => 0.

(** Discharge [d] now, charge it back at the next index. *)
Definition shift (d : Q) : nat -> Q :=
  fun t => match t with O => - d | S O => d | _ => 0 end.

(** ** Reading a trace *)

(** [d[k]] *)
Fixpoint dict_get (d : Operations) (k : nat) : option Row :=
  match d with
  | [] => None
  | (k', x) :: r => if Nat.eqb k' k then Some x else dict_get r k
  end.

Definition column (f : Row -> Q) (d : Operations) : list Q :=
  map (fun kr => f (snd kr)) d.

(** A window on which an iteration of the loop can run: at least two rows in
    the column the solver is given, at least one in the column the realised
    load is read from. *)
Definition window_ok (w : DataFrame) : bool :=
  match w with
  | c0 :: c1 :: _ => (2 <=? length c0)%nat && (1 <=? length c1)%nat
  | _ => false
  end.

Definition with_peak_cost (c : Config) (pc : Q) : Config :=
  {| bat_size_kwh := bat_size_kwh c;
     bat_efficiency := bat_efficiency c;
     bat_max_power := bat_max_power c;
     bat_end_soc_weight := bat_end_soc_weight c;
     peak_cost := pc;
     peak_init := peak_init c;
     bat_initial_soc := bat_initial_soc c |}.



(** ** The specification's formulas, for comparison *)

(** The objective as the specification writes it. *)
Definition spec_objective (dev_plus dev_minus monthly pc terminal_weight
    final_energy initial_energy : Q) : Q :=
  (dev_plus + monthly) * pc + (dev_minus + monthly) * pc
  + terminal_weight * (final_energy - initial_energy) ^ 2.

(** The peak update as the specification writes it. *)
Definition spec_peak (pk realized_net_load window_max : Q) : Q :=
  Qmax pk (Qmin realized_net_load window_max).

(** ** Sample data *)

(** The configuration of the specification's end-to-end example. *)
Definition sample_config : Config :=
  {| bat_size_kwh := 10;
     bat_efficiency := 95 # 100;
     bat_max_power := 5;
     bat_end_soc_weight := 1 # 10;
     peak_cost := 1;
     peak_init := 8;
     bat_initial_soc := 1 # 2 |}.

(** A window with a forecast column and a ground-truth column. *)
Definition window (forecast truth : list Q) : DataFrame := [forecast; truth].

(** Two windows; the realised load of the second, 9, is above its forecasts. *)
Definition surprise_windows : list DataFrame :=
  [window [5; 5] [5; 5]; window [6; 6] [9; 6]].

(** Two windows whose first demand, 10, is above the incoming peak of 8. *)
Definition shaving_windows : list DataFrame :=
  [window [10; 5] [10; 5]; window [5; 5] [5; 5]].

(** A ground truth over three time steps, forecasts that repeat it value
    for value, and a ground truth that never varies. *)
Definition sample_truth : TimeSeries := [(0%Z, 1); (1%Z, 3); (2%Z, 2)].

Definition perfect_forecasts : list TimeSeries :=
  [[(0%Z, 1); (1%Z, 3)]; [(1%Z, 3); (2%Z, 2)]].

Definition flat_truth : TimeSeries := [(0%Z, 1); (1%Z, 1); (2%Z, 1)].

(** A sequence of one window only. *)
Definition single_window : list DataFrame := [window [5; 5] [5; 5]].

(** The three windows of the specification's end-to-end example. *)
Definition example_windows : list DataFrame :=
  [window [10; 12; 9] [10; 12; 9];
   window [12; 9; 11] [12; 9; 11];
   window [9; 11; 8] [9; 11; 8]].

(** ** Windows, as far as the loop reads them *)

(** What the loop reads of a window: the whole first column and the first
    cell of the second. *)
Definition essential (w : DataFrame) : DataFrame :=
  match w with
  | c0 :: c1 :: _ => [c0; firstn 1 c1]
  | _ => w
  end.

(** The first-column values of the windows realised in the first [k]
    iterations. *)
Definition ceiling_values (dfs_mpc : list DataFrame) (k : nat) : list Q :=
  flat_map (fun w => nth 0 w []) (firstn k (tl dfs_mpc)).

(** The number of an index of [m.T], as a rational. *)
Definition Qnat (n : nat) : Q := inject_Z (Z.of_nat n).

(** Three windows, the second with a single forecast. *)
Definition broken_windows : list DataFrame :=
  [window [5; 5] [5; 5]; window [6] [9]; window [7; 7] [7; 7]].

(** The sample configuration with a battery that can neither charge nor
    discharge. *)
Definition still_config : Config :=
  {| bat_size_kwh := 10;
     bat_efficiency := 95 # 100;
     bat_max_power := 0;
     bat_end_soc_weight := 1 # 10;
     peak_cost := 1;
     peak_init := 8;
     bat_initial_soc := 1 # 2 |}.

(** Forecasts over the time steps of [sample_truth] that miss it. *)
Definition poor_forecasts : list TimeSeries :=
  [[(0%Z, 2); (1%Z, 1)]; [(1%Z, 2); (2%Z, 3)]; [(2%Z, 1); (0%Z, 4)]].

(** * The helpers of [bin/utils.py] *)

(** ** [get_locations] *)

(** [s.endswith(suffix)] *)
Fixpoint ends_with (s suffix : string) : bool :=
  String.eqb s suffix ||
  match s with
  | EmptyString => false
  | String _ r => ends_with r suffix
  end.

(** [s.split(sep)[0]]: what precedes the first separator, the whole string
    when it has none. *)
Fixpoint before_sep (sep : ascii) (s : string) : string :=
  match s with
  | EmptyString => EmptyString
  | String c r => if Ascii.eqb c sep then EmptyString
                  else String c (before_sep sep r)
  end.

Fixpoint contains_char (sep : ascii) (s : string) : bool :=
  match s with
  | EmptyString => false
  | String c r => Ascii.eqb c sep || contains_char sep r
  end.

(** [listing] is what [os.listdir] returns for the [power] directory. *)
Definition get_locations (listing : list string) : list string :=
  let locations :=
    filter (fun location => ends_with location "_power.csv") listing in
  map (before_sep "_") locations.

(** ** [drop_duplicate_index] and [remove_duplicate_index]

    A frame is read here through its index only: a list of rows, each with
    its index label. *)

Definition IndexedFrame (A : Type) : Type := list (Z * A).

Definition labels {A : Type} (df : IndexedFrame A) : list Z := map fst df.

(** [index.duplicated(keep='first')]: true at every occurrence of a label
    but its first. *)
Fixpoint duplicated_from (seen : list Z) (index : list Z) : list bool :=
  match index with
  | [] => []
  | i :: r => existsb (Z.eqb i) seen :: duplicated_from (i :: seen) r
  end.

Definition duplicated (index : list Z) : list bool := duplicated_from [] index.

(** [df[mask]] and [df.loc[mask]] with a boolean mask *)
Definition select {A : Type} (df : list A) (mask : list bool) : list A :=
  map fst (filter snd (combine df mask)).

Definition drop_duplicate_index {A : Type} (df : IndexedFrame A)
    : IndexedFrame A :=
  select df (map negb (duplicated (labels df))).

Definition remove_duplicate_index {A : Type} (df : IndexedFrame A)
    : IndexedFrame A :=
  select df (map negb (duplicated (labels df))).

(** The first row with a label. *)
Fixpoint first_row {A : Type} (df : IndexedFrame A) (i : Z) : option A :=
  match df with
  | [] => None
  | (j, x) :: r => if Z.eqb j i then Some x else first_row r i
  end.

(** The rows whose label is neither in [seen] nor carried by an earlier
    row. *)
Fixpoint keep_new {A : Type} (seen : list Z) (df : IndexedFrame A)
    : IndexedFrame A :=
  match df with
  | [] => []
  | (i, x) :: r =>
      if existsb (Z.eqb i) seen then keep_new (i :: seen) r
      else (i, x) :: keep_new (i :: seen) r
  end.

(** ** [ts_list_concat]

    The series and their operations belong to the forecasting library; the
    function is embedded over them. *)

Section TsListConcat.
Variable TS : Type.
Variable Time : Type.
(** [ts.end_time()], [ts[:-1]], [ts[t:]] and [a.append(b)] *)
Variable end_time : TS -> result Time.
Variable drop_last : TS -> result TS.
Variable from_time : TS -> Time -> result TS.
Variable append_ts : TS -> TS -> result TS.

(** The body of the loop, over the series [ts_list[i]] of its range. *)
Fixpoint concat_loop (ts : TS) (middle : list TS) : result TS :=
  match middle with
  | [] => Ok ts
  | ts_i :: rest =>
      previous_end <- end_time ts ;;
      head <- drop_last ts ;;
      tail <- from_time ts_i previous_end ;;
      ts' <- append_ts head tail ;;
      concat_loop ts' rest
  end.

(** [range(1, len(ts_list)-1)] ranges over the series after the first and
    before the last. *)
Definition ts_list_concat (ts_list : list TS) : result TS :=
  match ts_list with
  | [] => Raise IndexError
  | ts :: rest => concat_loop ts (removelast rest)
  end.
End TsListConcat.

(** ** [get_year_list] *)

(** [Index.unique()]: the values in order of first appearance. *)
Fixpoint unique_from (seen : list Z) (l : list Z) : list Z :=
  match l with
  | [] => []
  | x :: r => if existsb (Z.eqb x) seen then unique_from seen r
              else x :: unique_from (x :: seen) r
  end.

Definition unique (l : list Z) : list Z := unique_from [] l.

Fixpoint insert_sorted (x : Z) (l : list Z) : list Z :=
  match l with
  | [] => [x]
  | y :: r => if Z.leb x y then x :: y :: r else y :: insert_sorted x r
  end.

(** [Index.sort_values()], ascending. *)
Definition sort_values (l : list Z) : list Z := fold_right insert_sorted [] l.

(** [index_year] is [df.index.year], the year of each row. *)
Definition get_year_list (index_year : list Z) : list Z :=
  let years := unique index_year in
  let years := sort_values years in
  years.

(** ** [calc_rolling_sum_of_load]

    The frame is given row by row, each row the values of its columns; its
    values are numbers (no missing value) and it has no column named
    [rolling_sum] yet.  A row is labelled by its position. *)

Definition Qsum (l : list Q) : Q := fold_left Qplus l 0.

(** [df.sum(axis=1)] *)
Definition row_totals (df : list (list Q)) : list Q := map Qsum df.

(** [Series.rolling(n).sum()], for a window of [n >= 1] rows: the sum of the
    [n] values that end at each position, NaN where fewer are available. *)
Definition rolling_sum (n : nat) (s : list Q) : list (option Q) :=
  map (fun i =>
         if (n <=? S i)%nat
         then Some (Qsum (firstn n (skipn (S i - n) s)))
         else None)
      (seq 0 (length s)).

(** [Series.shift(1)] *)
Definition shift_one {A : Type} (s : list (option A)) : list (option A) :=
  firstn (length s) (None :: s).

(** [df['rolling_sum'] = col] *)
Definition set_rolling_sum (df : list (list Q)) (col : list (option Q))
    : list (nat * (list Q * option Q)) :=
  combine (seq 0 (length df)) (combine df col).

(** [df.dropna()] *)
Definition dropna (df : list (nat * (list Q * option Q)))
    : list (nat * (list Q * Q)) :=
  flat_map
    (fun r =>
       match snd (snd r) with
       | Some x => [(fst r, (fst (snd r), x))]
       | None => []
       end)
    df.

(** The frame of the caller once the column is set in it, and the frame
    that is returned. *)
Definition calc_rolling_sum_of_load (df : list (list Q)) (n_days : positive)
    : list (nat * (list Q * option Q)) * list (nat * (list Q * Q)) :=
  let col := shift_one (rolling_sum (Pos.to_nat n_days) (row_totals df)) in
  let df_set := set_rolling_sum df col in
  (df_set, dropna df_set).

(** The total load of the [n] rows before position [i]. *)
Definition load_before (df : list (list Q)) (n i : nat) : Q :=
  Qsum (firstn n (skipn (i - n) (row_totals df))).

(** ** [get_df_diffs] *)

(** A frame whose cells may be missing, with its number of rows. *)
Record NaFrame : Type := mkNaFrame {
  na_rows : nat;
  na_columns : list (list (option Q))
}.

(** [df.iloc[:,0].values - df.iloc[:,1]] *)
Definition diff_of (df : DataFrame) : result (list Q) :=
  c0 <- iloc_col df 0 ;;
  c1 <- iloc_col df 1 ;;
  Ok (map (fun ab => fst ab - snd ab) (combine c0 c1)).

Definition pad (n : nat) (c : list (option Q)) : list (option Q) :=
  c ++ repeat None (n - length c).

(** [pd.concat([df_diffs, pd.DataFrame(diff)], axis=1)]: the rows of both,
    NaN where a column has no value for a row. *)
Definition concat_axis1 (df_diffs : NaFrame) (diff : list Q) : NaFrame :=
  let n := Nat.max (na_rows df_diffs) (length diff) in
  {| na_rows := n;
     na_columns := map (pad n) (na_columns df_diffs) ++ [pad n (map Some diff)] |}.

Fixpoint diffs_loop (df_diffs : NaFrame) (df_list : list DataFrame)
    : result NaFrame :=
  match df_list with
  | [] => Ok df_diffs
  | df :: rest =>
      diff <- diff_of df ;;
      diffs_loop (concat_axis1 df_diffs diff) rest
  end.

(** [df.shape[0]] *)
Definition shape0 (df : DataFrame) : nat := length (nth 0 df []).

Definition get_df_diffs (df_list : list DataFrame) : result NaFrame :=
  df0 <- of_option IndexError (nth_error df_list 0) ;;
  diffs_loop {| na_rows := shape0 df0; na_columns := [] |} df_list.

(** A frame with a forecast and a ground-truth column of [n] rows each. *)
Definition two_columns (n : nat) (df : DataFrame) : Prop :=
  exists c0 c1 rest,
    df = c0 :: c1 :: rest /\ length c0 = n /\ length c1 = n.

(** The differences of the first two columns of a frame, row by row. *)
Definition diff_values (df : DataFrame) : list Q :=
  map (fun ab => fst ab - snd ab) (combine (nth 0 df []) (nth 1 df [])).

(** ** [calc_error_scores] *)

(** A metric: its [__name__] and what calling it on the predictions and the
    target gives. *)
Record Metric (P T : Type) : Type := mkMetric {
  metric_name : string;
  metric_call : P -> T -> result Q
}.

Arguments metric_name {P T} m.
Arguments metric_call {P T} m.

(** [metrics_scores]: a dict from names to scores, in insertion order. *)
Definition Scores : Type := list (string * Q).

(** [d[k] = x] *)
Fixpoint scores_set (d : Scores) (k : string) (x : Q) : Scores :=
  match d with
  | [] => [(k, x)]
  | (k', x') :: r =>
      if String.eqb k' k then (k, x) :: r else (k', x') :: scores_set r k x
  end.

(** [d[k]] *)
Fixpoint scores_get (d : Scores) (k : string) : option Q :=
  match d with
  | [] => None
  | (k', x) :: r => if String.eqb k' k then Some x else scores_get r k
  end.

Fixpoint scores_loop {P T : Type} (metrics_scores : Scores)
    (metrics : list (Metric P T)) (ts_predictions_inverse : P)
    (trg_inversed : T) : result Scores :=
  match metrics with
  | [] => Ok metrics_scores
  | metric :: rest =>
      score <- metric_call metric ts_predictions_inverse trg_inversed ;;
      scores_loop (scores_set metrics_scores (metric_name metric) score)
        rest ts_predictions_inverse trg_inversed
  end.

Definition calc_error_scores {P T : Type} (metrics : list (Metric P T))
    (ts_predictions_inverse : P) (trg_inversed : T) : result Scores :=
  scores_loop [] metrics ts_predictions_inverse trg_inversed.

(** ** [boxcox_transform] *)

(** What [scipy.stats.boxcox] returns: the transformed array alone, or with
    the fitted lambda when it was asked to fit one. *)
Inductive BoxcoxValue : Type :=
| Transformed (y : list Q)
| Fitted (y : list Q) (maxlog : Q).

(** What a column is assigned: an array, or one number for all its rows. *)
Inductive Assigned : Type :=
| Array (y : list Q)
| Scalar (a : Q).

(** [a, b = value]: a pair unpacks; an array unpacks into its two elements
    when it has two, and is a [ValueError] otherwise. *)
Definition unpack2 (value : BoxcoxValue) : result (Assigned * Q) :=
  match value with
  | Fitted y maxlog => Ok (Array y, maxlog)
  | Transformed [a; b] => Ok (Scalar a, b)
  | Transformed _ => Raise ValueError
  end.

(** [df[column] = a] on a frame of [nrows] rows *)
Definition assigned_column (nrows : nat) (a : Assigned) : list Q :=
  match a with
  | Array y => y
  | Scalar x => repeat x nrows
  end.

Section BoxCox.
(** The transform of one value for a lambda, the lambda fitted to a column,
    and the checks [scipy.stats.boxcox] makes on its data, when it fits and
    when the lambda is given (every one of them raises a [ValueError]). *)
Variable special_boxcox : Q -> Q -> Q.
Variable boxcox_normmax : list Q -> Q.
Variable data_ok : list Q -> bool.
Variable data_ok_given : list Q -> bool.

Definition boxcox (x : list Q) (lmbda : option Q) : result BoxcoxValue :=
  match lmbda with
  | Some l =>
      if data_ok_given x
      then Ok (Transformed (map (fun xi => special_boxcox xi l) x))
      else Raise ValueError
  | None =>
      match x with
      | [] => Ok (Transformed [])
      | _ =>
          if data_ok x
          then let lmax := boxcox_normmax x in
               Ok (Fitted (map (fun xi => special_boxcox xi lmax) x) lmax)
          else Raise ValueError
      end
  end.

(** The loop over the columns: the columns already set, those to come and
    the current [lam]. *)
Fixpoint boxcox_loop (done todo : list (list Q)) (lam : option Q)
    : result (DataFrame * option Q) :=
  match todo with
  | [] => Ok (done, lam)
  | column :: rest =>
      value <- boxcox column lam ;;
      pair <- unpack2 value ;;
      boxcox_loop (done ++ [assigned_column (length column) (fst pair)])
        rest (Some (snd pair))
  end.

Definition boxcox_transform (dataframe : DataFrame) (lam : option Q)
    : result (DataFrame * option Q) :=
  boxcox_loop [] dataframe lam.
End BoxCox.

(** Stand-ins for the numerical routines, for examples. *)
Definition sample_special_boxcox (x lmbda : Q) : Q := x * lmbda.
Definition sample_normmax (x : list Q) : Q := 1 # 2.
Definition sample_data_ok (x : list Q) : bool := forallb (fun xi => Qltb 0 xi) x.

(** ** Sample series

    Series reduced to their time steps, with the four operations that
    [ts_list_concat] uses. *)

Definition steps_end_time (ts : list Z) : result Z :=
  match rev ts with
  | [] => Raise ValueError
  | t :: _ => Ok t
  end.

Definition steps_drop_last (ts : list Z) : result (list Z) :=
  Ok (removelast ts).

Definition steps_from_time (ts : list Z) (t : Z) : result (list Z) :=
  Ok (filter (fun u => Z.leb t u) ts).

Definition steps_append (a b : list Z) : result (list Z) := Ok (a ++ b).

(** * Binary64

    The three computations in which the floats of the program part from the
    rationals of the embedding, on the floats themselves. *)

(** [Series.max()] skips NaN and is NaN when nothing else is left. *)
Fixpoint max_from_b64 (acc : float) (l : list float) : float :=
  match l with
  | [] => acc
  | x :: r => max_from_b64 (if PrimFloat.ltb acc x then x else acc) r
  end.

Definition series_max_b64 (l : list float) : float :=
  match filter (fun x => negb (PrimFloat.is_nan x)) l with
  | [] => PrimFloat.nan
  | x :: r => max_from_b64 x r
  end.

(** [calculate_operational_costs] on the column [opr_net_load] of the trace
    and on [config.peak_cost]: one product of floats. *)
Definition calculate_operational_costs_b64 (opr_net_load : list float)
    (peak_cost_b64 : float) : result float :=
  match opr_net_load with
  | [] => Raise KeyError
  | _ =>
      let peak_penalty :=
        PrimFloat.mul (series_max_b64 opr_net_load) peak_cost_b64 in
      Ok peak_penalty
  end.

(** One cell of [(df - gt_min) / (gt_max - gt_min)]: no test, no
    exception. *)
Definition scale_b64 (gt_min_b64 gt_max_b64 x : float) : float :=
  PrimFloat.div (PrimFloat.sub x gt_min_b64)
    (PrimFloat.sub gt_max_b64 gt_min_b64).

(** The column that the left join adds, with its missing cells. *)
Definition join_left_nan (ts_forecast gt : TimeSeries) : list (option Q) :=
  map (fun ix => lookup gt (fst ix)) ts_forecast.

(** The floats nearest to 0.1, 0.2 and 0.3. *)
Definition tenth : float := 0x1.999999999999ap-4%float.
Definition fifth : float := 0x1.999999999999ap-3%float.
Definition three_tenths : float := 0x1.3333333333333p-2%float.

(** * Properties *)

(** ** Comparisons, [min] and [max] *)

Lemma Qltb_lt (a b : Q) : Qltb a b = true <-> a < b.
Proof.
  unfold Qltb. rewrite negb_true_iff. split; intro H.
  - apply Qnot_le_lt. intro Hle. apply Qle_bool_iff in Hle. congruence.
  - destruct (Qle_bool b a) eqn:E; [|reflexivity].
    apply Qle_bool_iff in E. exfalso. apply (Qlt_not_le _ _ H E).
Qed.

Lemma Qltb_ge (a b : Q) : Qltb a b = false <-> b <= a.
Proof.
  unfold Qltb. rewrite negb_false_iff. apply Qle_bool_iff.
Qed.

Lemma py_min_Qmin (a b : Q) : py_min a b == Qmin a b.
Proof.
  unfold py_min. destruct (Qltb b a) eqn:E.
  - apply Qltb_lt in E. symmetry. apply Q.min_r. apply Qlt_le_weak, E.
  - apply Qltb_ge in E. symmetry. apply Q.min_l. exact E.
Qed.

Lemma max_from_ge_acc (l : list Q) : forall acc, acc <= max_from acc l.
Proof.
  induction l as [|x r IH]; intro acc; simpl.
  - apply Qle_refl.
  - destruct (Qltb acc x) eqn:E.
    + apply Qltb_lt in E. eapply Qle_trans; [apply Qlt_le_weak, E | apply IH].
    + apply IH.
Qed.

Lemma max_from_ge_elt (l : list Q) :
  forall acc x, In x l -> x <= max_from acc l.
Proof.
  induction l as [|y r IH]; intros acc x Hin; simpl in *; [contradiction|].
  destruct Hin as [-> | Hin]; [|apply IH, Hin].
  destruct (Qltb acc x) eqn:E.
  - apply max_from_ge_acc.
  - apply Qltb_ge in E. eapply Qle_trans; [exact E | apply max_from_ge_acc].
Qed.

Lemma max_from_in (l : list Q) :
  forall acc, max_from acc l = acc \/ In (max_from acc l) l.
Proof.
  induction l as [|y r IH]; intro acc; simpl; [left; reflexivity|].
  destruct (Qltb acc y).
  - destruct (IH y) as [-> | H]; [right; left; reflexivity | right; right; exact H].
  - destruct (IH acc) as [-> | H]; [left; reflexivity | right; right; exact H].
Qed.

Lemma min_from_le_acc (l : list Q) : forall acc, min_from acc l <= acc.
Proof.
  induction l as [|x r IH]; intro acc; simpl.
  - apply Qle_refl.
  - destruct (Qltb x acc) eqn:E.
    + apply Qltb_lt in E. eapply Qle_trans; [apply IH | apply Qlt_le_weak, E].
    + apply IH.
Qed.

Lemma min_from_le_elt (l : list Q) :
  forall acc x, In x l -> min_from acc l <= x.
Proof.
  induction l as [|y r IH]; intros acc x Hin; simpl in *; [contradiction|].
  destruct Hin as [-> | Hin]; [|apply IH, Hin].
  destruct (Qltb x acc) eqn:E.
  - apply min_from_le_acc.
  - apply Qltb_ge in E. eapply Qle_trans; [apply min_from_le_acc | exact E].
Qed.

Lemma min_from_in (l : list Q) :
  forall acc, min_from acc l = acc \/ In (min_from acc l) l.
Proof.
  induction l as [|y r IH]; intro acc; simpl; [left; reflexivity|].
  destruct (Qltb y acc).
  - destruct (IH y) as [-> | H]; [right; left; reflexivity | right; right; exact H].
  - destruct (IH acc) as [-> | H]; [left; reflexivity | right; right; exact H].
Qed.

(** ** Outcomes *)

Lemma bind_Ok {A B : Type} (r : result A) (k : A -> result B) (b : B) :
  bind r k = Ok b -> exists a, r = Ok a /\ k a = Ok b.
Proof.
  destruct r as [a|e]; simpl; intro H; [exists a; auto | discriminate].
Qed.

Lemma of_option_Ok {A : Type} (e : exn) (o : option A) (a : A) :
  of_option e o = Ok a -> o = Some a.
Proof. destruct o; simpl; intro H; [congruence | discriminate]. Qed.

Ltac inv_bind H :=
  let x := fresh "x" in
  let Hx := fresh "Hx" in
  apply bind_Ok in H; destruct H as (x & Hx & H).

(** ** The solver's contract on the concrete solvers *)

Lemma constraints_at_sound (m : Model) (v : Vars) (t : nat) :
  constraints_at m v t = true ->
  energy_balance m v t /\ operation_peak v t /\ bat_soc m v t /\
  bat_lim_energy m v t /\ bat_lim_power_pos m v t /\
  bat_lim_power_neg m v t /\ 0 <= bss_en v t.
Proof.
  unfold constraints_at. rewrite !andb_true_iff.
  intros ((((((H1 & H2) & H3) & H4) & H5) & H6) & H7).
  apply Qeq_bool_iff in H1. apply Qle_bool_iff in H2, H4, H5, H6, H7.
  repeat split; try assumption.
  unfold bat_soc. destruct t; apply Qeq_bool_iff in H3; exact H3.
Qed.

Lemma feasibleb_sound (m : Model) (v : Vars) :
  feasibleb m v = true -> feasible m v.
Proof.
  unfold feasibleb. rewrite !andb_true_iff.
  intros ((((H1 & H2) & H3) & H4) & H5).
  apply Qle_bool_iff in H1, H2, H3. apply Qeq_bool_iff in H4.
  rewrite forallb_forall in H5.
  assert (Hat : forall t, (t < T_len m)%nat -> constraints_at m v t = true).
  { intros t Ht. apply H5. unfold T. apply in_seq. lia. }
  split; [|split].
  - repeat split; try assumption.
    intros t Ht. apply (constraints_at_sound m v t (Hat t Ht)).
  - exact H4.
  - intros t Ht. pose proof (constraints_at_sound m v t (Hat t Ht)). tauto.
Qed.

Lemma schedule_solver_sound (p : nat -> Q) : solver_sound (schedule_solver p).
Proof.
  intros m v. unfold schedule_solver.
  destruct (feasibleb m (schedule_vars p m)) eqn:E; [|discriminate].
  intro H. injection H as <-. apply feasibleb_sound, E.
Qed.

(** The objective is bounded below by twice the incoming peak's charge, and
    a feasible point that reaches the bound is a minimiser. *)
Lemma cost_lower_bound (m : Model) (v : Vars) (obj : Vars -> Q) :
  0 <= m_peak_cost m -> 0 <= bss_end_soc m ->
  cost m = Ok obj -> feasible m v ->
  2 * monthly_peak m * m_peak_cost m <= obj v.
Proof.
  intros Hpc Hw Hc ((Hp & Hdp & Hdm & _) & _ & _).
  unfold cost in Hc. destruct (T_len m) as [|last]; [discriminate|].
  injection Hc as <-. cbv zeta.
  set (d := bss_en v last - bss_energy_start m).
  assert (Hsq : 0 <= bss_end_soc m * d ^ 2).
  { apply Qmult_le_0_compat; [exact Hw|]. simpl. nra. }
  nra.
Qed.

Lemma optimal_at_bound (m : Model) (v : Vars) (obj : Vars -> Q) :
  0 <= m_peak_cost m -> 0 <= bss_end_soc m ->
  cost m = Ok obj -> feasible m v ->
  obj v == 2 * monthly_peak m * m_peak_cost m ->
  optimal m v.
Proof.
  intros Hpc Hw Hc Hf Hv. split; [exact Hf|].
  exists obj. split; [exact Hc|]. intros v' Hf'.
  rewrite Hv. apply (cost_lower_bound m v' obj); assumption.
Qed.

(** ** The loop, iteration by iteration *)

Lemma nth_error_combine_seq {A : Type} (l : list A) :
  forall (s k : nat) (x : A),
    nth_error l k = Some x ->
    nth_error (combine (seq s (length l)) l) k = Some ((s + k)%nat, x).
Proof.
  induction l as [|a r IH]; intros s k x H.
  - destruct k; discriminate.
  - destruct k as [|k]; simpl in *.
    + injection H as ->. rewrite Nat.add_0_r. reflexivity.
    + rewrite (IH (S s) k x H). f_equal. f_equal. lia.
Qed.

Lemma nth_error_enumerate {A : Type} (l : list A) (k : nat) (x : A) :
  nth_error l k = Some x -> nth_error (enumerate l) k = Some (k, x).
Proof.
  intro H. unfold enumerate. rewrite (nth_error_combine_seq l 0 k x H).
  reflexivity.
Qed.

Lemma length_enumerate {A : Type} (l : list A) :
  length (enumerate l) = length l.
Proof.
  unfold enumerate. rewrite length_combine, length_seq. apply Nat.min_id.
Qed.

Lemma removelast_length {A : Type} (l : list A) :
  length (removelast l) = (length l - 1)%nat.
Proof.
  rewrite removelast_firstn_len, length_firstn. lia.
Qed.

Lemma firstn_snoc {A : Type} (l : list A) (k : nat) (x : A) :
  nth_error l k = Some x -> firstn (S k) l = firstn k l ++ [x].
Proof.
  revert k. induction l as [|a r IH]; intros k H.
  - destruct k; discriminate.
  - destruct k as [|k]; simpl in *.
    + injection H as ->. reflexivity.
    + f_equal. apply IH, H.
Qed.

Lemma dict_update_fresh (d : Operations) (k : nat) (x : Row) :
  ~ In k (keys d) -> dict_update d k x = d ++ [(k, x)].
Proof.
  induction d as [|[k' x'] r IH]; simpl; intro H; [reflexivity|].
  destruct (Nat.eqb k' k) eqn:E.
  - apply Nat.eqb_eq in E. exfalso. apply H. left. exact E.
  - f_equal. apply IH. intro Hin. apply H. right. exact Hin.
Qed.

Section Loop.
Variable solver : Solver.
Variable dfs_mpc : list DataFrame.
Variable config : Config.

Local Abbreviation step' := (step solver dfs_mpc config).
Local Abbreviation loop' := (loop solver dfs_mpc config).
Local Abbreviation state_after' := (state_after solver dfs_mpc config).

Lemma loop_app (l1 l2 : list (nat * DataFrame)) (st : SimState) :
  loop' (l1 ++ l2) st = st' <- loop' l1 st ;; loop' l2 st'.
Proof.
  revert st. induction l1 as [|[t df] r IH]; intro st; simpl; [reflexivity|].
  destruct (step' st t df) as [st'|e]; simpl; [apply IH | reflexivity].
Qed.

Lemma state_after_O : state_after' 0 = Ok (init_state config).
Proof. reflexivity. Qed.

Lemma state_after_S (k : nat) (df : DataFrame) :
  nth_error (removelast dfs_mpc) k = Some df ->
  state_after' (S k) = st <- state_after' k ;; step' st k df.
Proof.
  intro H. unfold state_after.
  rewrite (firstn_snoc _ k (k, df) (nth_error_enumerate _ _ _ H)).
  rewrite loop_app. destruct (loop' _ _) as [st|e]; simpl; [|reflexivity].
  destruct (step' st k df); reflexivity.
Qed.

Lemma state_after_end :
  run_operations_state solver dfs_mpc config
  = state_after' (length dfs_mpc - 1).
Proof.
  unfold run_operations_state, state_after.
  rewrite firstn_all2; [reflexivity|].
  rewrite length_enumerate, removelast_length. lia.
Qed.

(** Within the loop's range, the window of iteration [k] is [dfs_mpc[k]]
    and the next one exists. *)
Lemma window_at (k : nat) :
  (S k < length dfs_mpc)%nat ->
  exists df next,
    nth_error (removelast dfs_mpc) k = Some df /\
    nth_error dfs_mpc k = Some df /\
    nth_error dfs_mpc (S k) = Some next.
Proof.
  intro Hk.
  destruct (nth_error dfs_mpc k) as [df|] eqn:E1;
    [|apply nth_error_None in E1; lia].
  destruct (nth_error dfs_mpc (S k)) as [next|] eqn:E2;
    [|apply nth_error_None in E2; lia].
  exists df, next. split; [|split; reflexivity].
  assert (Hne : dfs_mpc <> []) by (intro Hn; rewrite Hn in Hk; simpl in Hk; lia).
  rewrite <- E1. rewrite (app_removelast_last [] Hne) at 2.
  symmetry. apply nth_error_app1.
  rewrite removelast_length. lia.
Qed.

(** A state that is reached was reached through its predecessor. *)
Lemma state_after_pred (k : nat) (st' : SimState) :
  (S k < length dfs_mpc)%nat ->
  state_after' (S k) = Ok st' ->
  exists st df,
    nth_error dfs_mpc k = Some df /\
    state_after' k = Ok st /\ step' st k df = Ok st'.
Proof.
  intros Hk H. destruct (window_at k Hk) as (df & next & H1 & H2 & _).
  rewrite (state_after_S k df H1) in H. inv_bind H.
  exists x, df. auto.
Qed.

(** The keys of the trace after [k] iterations are [1 .. k]. *)
Lemma keys_after (k : nat) :
  forall st, (k < length dfs_mpc)%nat ->
  state_after' k = Ok st -> keys (st_operations st) = seq 1 k.
Proof.
  induction k as [|k IH]; intros st Hk H.
  - rewrite state_after_O in H. injection H as <-. reflexivity.
  - destruct (state_after_pred k st Hk H) as (st0 & df & _ & H0 & Hs).
    specialize (IH st0 ltac:(lia) H0).
    unfold step in Hs. repeat inv_bind Hs. injection Hs as <-.
    cbn [st_operations]. rewrite dict_update_fresh.
    + unfold keys in *. rewrite map_app, IH. cbn [map fst].
      rewrite seq_S. reflexivity.
    + rewrite IH, in_seq. lia.
Qed.
End Loop.

(** ** Inverting one call of the solver and one iteration *)

Lemma nth_error_res_df (m : Model) (v : Vars) (t : nat) :
  (t < T_len m)%nat ->
  nth_error (res_df m v) t
  = Some (mkStep (net_load v t) (bss_p_ch v t) (bss_en v t)).
Proof.
  intro Ht. unfold res_df, T.
  rewrite nth_error_map, nth_error_seq.
  destruct (Nat.ltb_spec t (T_len m)) as [_|Hge]; [reflexivity | lia].
Qed.

Lemma length_res_df (m : Model) (v : Vars) : length (res_df m v) = T_len m.
Proof. unfold res_df, T. rewrite length_map, length_seq. reflexivity. Qed.

Lemma run_opt_Ok (solver : Solver) (lf : list Q) (e pk : Q) (config : Config)
    (v : Vars) :
  (2 <= length lf)%nat ->
  solver (build_model lf e pk config) = Some v ->
  run_opt solver lf e pk config
  = Ok (mkStep (net_load v 1) (bss_p_ch v 1) (bss_en v 1)).
Proof.
  intros Hl Hs. unfold run_opt, cost.
  replace (T_len (build_model lf e pk config)) with (length lf) by reflexivity.
  destruct (length lf) as [|n] eqn:E; [lia|]. cbn [bind].
  rewrite Hs. cbn [of_option bind].
  rewrite nth_error_res_df; [reflexivity|].
  unfold T_len. cbn [demand build_model]. lia.
Qed.

Lemma run_opt_inv (solver : Solver) (lf : list Q) (e pk : Q) (config : Config)
    (sp : StepDecision) :
  run_opt solver lf e pk config = Ok sp ->
  exists v,
    (2 <= length lf)%nat /\
    solver (build_model lf e pk config) = Some v /\
    sp = mkStep (net_load v 1) (bss_p_ch v 1) (bss_en v 1).
Proof.
  intro H. unfold run_opt in H. inv_bind H. inv_bind H.
  apply of_option_Ok in Hx0, H. exists x0.
  assert (Hl : (1 < length (res_df (build_model lf e pk config) x0))%nat).
  { apply nth_error_Some. congruence. }
  rewrite length_res_df in Hl. unfold T_len in Hl. cbn [demand build_model] in Hl.
  split; [lia|]. split; [exact Hx0|].
  rewrite nth_error_res_df in H by (unfold T_len; cbn [demand build_model]; lia).
  congruence.
Qed.

Lemma dict_get_update (d : Operations) (k : nat) (x : Row) :
  dict_get (dict_update d k x) k = Some x.
Proof.
  induction d as [|[k' x'] r IH]; simpl.
  - rewrite Nat.eqb_refl. reflexivity.
  - destruct (Nat.eqb k' k) eqn:E; simpl.
    + rewrite Nat.eqb_refl. reflexivity.
    + rewrite E. exact IH.
Qed.

Lemma step_inv (solver : Solver) (dfs_mpc : list DataFrame) (config : Config)
    (st st' : SimState) (t : nat) (df : DataFrame) :
  step solver dfs_mpc config st t df = Ok st' ->
  exists lf sp next load fc,
    iloc_col df 0 = Ok lf /\
    run_opt solver lf (st_energy st) (st_peak st) config = Ok sp /\
    nth_error dfs_mpc (S t) = Some next /\
    iloc_cell next 0 1 = Ok load /\
    update_peak (st_peak st) (load + sp_bss_p_ch sp) next = Ok (st_peak st') /\
    nth_error lf 0 = Some fc /\
    st_energy st' = sp_bss_en sp /\
    st_operations st'
    = dict_update (st_operations st) (S t)
        (mkRow (sp_net_load sp) (sp_bss_p_ch sp) (sp_bss_en sp) load
           (load + sp_bss_p_ch sp) (st_peak st') fc).
Proof.
  intro H. unfold step in H.
  inv_bind H. inv_bind H. inv_bind H. inv_bind H. inv_bind H. inv_bind H.
  injection H as <-. cbn [st_peak st_energy st_operations row_bss_en].
  apply of_option_Ok in Hx1, Hx4.
  exists x, x0, x1, x2, x4. repeat split; assumption.
Qed.

(** ** The running peak *)

Lemma update_peak_cases (pk nl : Q) (next : DataFrame) (pk' : Q) :
  update_peak pk nl next = Ok pk' ->
  (nl <= pk /\ pk' = pk) \/
  (pk < nl /\ exists col mx,
     iloc_col next 0 = Ok col /\ py_max col = Ok mx /\ pk' = py_min nl mx).
Proof.
  unfold update_peak. destruct (Qltb pk nl) eqn:E; intro H.
  - right. apply Qltb_lt in E. split; [exact E|].
    inv_bind H. inv_bind H. injection H as <-. exists x, x0. auto.
  - left. apply Qltb_ge in E. injection H as <-. auto.
Qed.

Lemma spec_peak_unchanged (pk nl mx : Q) : nl <= pk -> pk == spec_peak pk nl mx.
Proof.
  intro H. unfold spec_peak. symmetry. apply Q.max_l.
  eapply Qle_trans; [apply Q.le_min_l | exact H].
Qed.

Lemma spec_peak_raised (pk nl mx : Q) :
  pk < nl -> pk <= mx ->
  py_min nl mx == spec_peak pk nl mx /\ pk <= py_min nl mx.
Proof.
  intros H1 H2.
  assert (Hle : pk <= Qmin nl mx).
  { apply Q.min_glb; [apply Qlt_le_weak, H1 | exact H2]. }
  split.
  - unfold spec_peak. rewrite py_min_Qmin. symmetry. apply Q.max_r, Hle.
  - rewrite py_min_Qmin. exact Hle.
Qed.

(** What the loop does with the running peak, step by step.  At every
    step [t] of an episode the running peak is left as it is when the
    realised net load does not exceed it, and is set to
    [min(realised net load, max of column 0 of window t+1)] when it does.
    Whenever that window maximum is not below the running peak, this is the
    specification's [max(peak, min(net load, window max))] and the peak does
    not decrease; when it is below, the peak is lowered to it. *)
Theorem peak_update_rule (solver : Solver) (dfs_mpc : list DataFrame)
    (config : Config) (t : nat) (st st' : SimState) :
  (S t < length dfs_mpc)%nat ->
  state_after solver dfs_mpc config t = Ok st ->
  state_after solver dfs_mpc config (S t) = Ok st' ->
  exists row next,
    dict_get (st_operations st') (S t) = Some row /\
    nth_error dfs_mpc (S t) = Some next /\
    row_peak row = st_peak st' /\
    ((row_opr_net_load row <= st_peak st /\
      st_peak st' = st_peak st /\
      forall mx, st_peak st' == spec_peak (st_peak st) (row_opr_net_load row) mx)
     \/
     (st_peak st < row_opr_net_load row /\
      exists col mx,
        iloc_col next 0 = Ok col /\ py_max col = Ok mx /\
        st_peak st' = py_min (row_opr_net_load row) mx /\
        (st_peak st <= mx ->
         st_peak st' == spec_peak (st_peak st) (row_opr_net_load row) mx /\
         st_peak st <= st_peak st'))).
Proof.
  intros Hk H0 H1.
  destruct (state_after_pred _ _ _ t st' Hk H1) as (st0 & df & _ & H0' & Hs).
  rewrite H0 in H0'. injection H0' as <-.
  destruct (step_inv _ _ _ _ _ _ _ Hs)
    as (lf & sp & next & load & fc & _ & _ & Hn & _ & Hp & _ & _ & Hops).
  eexists. exists next. rewrite Hops, dict_get_update.
  split; [reflexivity|]. split; [exact Hn|]. split; [reflexivity|].
  cbn [row_opr_net_load].
  destruct (update_peak_cases _ _ _ _ Hp) as [(Hle & Heq) | (Hlt & col & mx & Hc & Hm & Heq)].
  - left. split; [exact Hle|]. split; [exact Heq|].
    intro mx. rewrite Heq. apply spec_peak_unchanged, Hle.
  - right. split; [exact Hlt|]. exists col, mx.
    split; [exact Hc|]. split; [exact Hm|]. split; [exact Heq|].
    intro Hmx. rewrite Heq. apply spec_peak_raised; assumption.
Qed.

(** C1.  The code at the input on which it breaks the claim.  The claim
    states the peak that the code's own comment announces, the historical
    peak ([peak = config.peak_init], "it will store the historical peak"):
    [max(peak, min(net load, window max))], which never decreases.  With a
    running peak of 8, a realised net load of 9 and a next window whose
    demands are all 6, the guard [net_load > peak] lets the assignment
    [peak = min(net_load, max(...))] through and the peak becomes 6, where
    the claim's rule keeps it at 8: the case of a window maximum below the
    running peak is missed.  The solver's answer on the first window, an
    idle battery, is a minimiser of the objective. *)
Lemma peak_can_decrease :
  exists st st' row v,
    state_after (schedule_solver idle) surprise_windows sample_config 0 = Ok st /\
    state_after (schedule_solver idle) surprise_windows sample_config 1 = Ok st' /\
    schedule_solver idle
      (build_model [5; 5] (st_energy st) (st_peak st) sample_config) = Some v /\
    optimal (build_model [5; 5] (st_energy st) (st_peak st) sample_config) v /\
    dict_get (st_operations st') 1 = Some row /\
    st_peak st == 8 /\ row_opr_net_load row == 9 /\
    py_max [6; 6] = Ok 6 /\
    st_peak st' == 6 /\
    ~ st_peak st' == spec_peak (st_peak st) (row_opr_net_load row) 6 /\
    st_peak st' < st_peak st.
Proof.
  eexists. eexists. eexists. eexists.
  split; [reflexivity|]. split; [vm_compute; reflexivity|].
  split; [vm_compute; reflexivity|].
  split.
  { eapply optimal_at_bound.
    - vm_compute. discriminate.
    - vm_compute. discriminate.
    - reflexivity.
    - apply feasibleb_sound. vm_compute. reflexivity.
    - vm_compute. reflexivity. }
  split; [vm_compute; reflexivity|].
  repeat split; try (vm_compute; reflexivity).
  vm_compute. discriminate.
Qed.

Lemma peak_update_rule_witness :
  exists st',
    state_after (schedule_solver idle) example_windows sample_config 1 = Ok st' /\
    exists row next,
      dict_get (st_operations st') 1 = Some row /\
      nth_error example_windows 1 = Some next /\
      row_peak row = st_peak st' /\
      ((row_opr_net_load row <= 8 /\ st_peak st' = 8 /\
        forall mx, st_peak st' == spec_peak 8 (row_opr_net_load row) mx)
       \/
       (8 < row_opr_net_load row /\
        exists col mx,
          iloc_col next 0 = Ok col /\ py_max col = Ok mx /\
          st_peak st' = py_min (row_opr_net_load row) mx /\
          (8 <= mx ->
           st_peak st' == spec_peak 8 (row_opr_net_load row) mx /\
           8 <= st_peak st'))).
Proof.
  eexists. split; [vm_compute; reflexivity|].
  apply (peak_update_rule (schedule_solver idle) example_windows sample_config
           0 (init_state sample_config)).
  - simpl. lia.
  - reflexivity.
  - vm_compute. reflexivity.
Defined.


(** ** Deciding on the forecast, realising on the truth *)

(** C2 (as amended).  At every step [t] of an episode the realised load is
    the cell in the first row of the second column (position 1) of window
    [t+1], the ground-truth column, and the realised net load is that load
    plus the decided charge power; the decision itself was solved on the
    first column (position 0) of window [t]. *)
Theorem realized_load_source (solver : Solver) (dfs_mpc : list DataFrame)
    (config : Config) (t : nat) (st st' : SimState) :
  (S t < length dfs_mpc)%nat ->
  state_after solver dfs_mpc config t = Ok st ->
  state_after solver dfs_mpc config (S t) = Ok st' ->
  exists row df next load_forecast,
    dict_get (st_operations st') (S t) = Some row /\
    nth_error dfs_mpc t = Some df /\
    nth_error dfs_mpc (S t) = Some next /\
    iloc_cell next 0 1 = Ok (row_load row) /\
    row_opr_net_load row = row_load row + row_bss_p_ch row /\
    iloc_col df 0 = Ok load_forecast /\
    nth_error load_forecast 0 = Some (row_forecast row) /\
    run_opt solver load_forecast (st_energy st) (st_peak st) config
    = Ok (mkStep (row_net_load row) (row_bss_p_ch row) (row_bss_en row)).
Proof.
  intros Hk H0 H1.
  destruct (state_after_pred _ _ _ t st' Hk H1) as (st0 & df & Hdf & H0' & Hs).
  rewrite H0 in H0'. injection H0' as <-.
  destruct (step_inv _ _ _ _ _ _ _ Hs)
    as (lf & sp & next & load & fc & Hlf & Hopt & Hn & Hload & _ & Hfc & _ & Hops).
  eexists. exists df, next, lf. rewrite Hops, dict_get_update.
  split; [reflexivity|]. cbn [row_load row_opr_net_load row_bss_p_ch
    row_forecast row_net_load row_bss_en].
  repeat split; try assumption. destruct sp; exact Hopt.
Qed.

(** C2, the claim as written fails: in a window whose first column starts
    with 6 and whose second column starts with 9, the realised load is 9. *)
Lemma realized_load_not_first_column :
  exists st' row next,
    state_after (schedule_solver idle) surprise_windows sample_config 1 = Ok st' /\
    dict_get (st_operations st') 1 = Some row /\
    nth_error surprise_windows 1 = Some next /\
    iloc_cell next 0 0 = Ok 6 /\
    row_load row = 9 /\
    iloc_cell next 0 0 <> Ok (row_load row) /\
    ~ row_load row == 6.
Proof.
  eexists. eexists. eexists.
  split; [vm_compute; reflexivity|].
  split; [vm_compute; reflexivity|].
  split; [reflexivity|].
  split; [reflexivity|].
  split; [reflexivity|].
  split; vm_compute; discriminate.
Qed.

Lemma realized_load_source_witness :
  exists st',
    state_after (schedule_solver idle) surprise_windows sample_config 1 = Ok st' /\
    exists row df next load_forecast,
      dict_get (st_operations st') 1 = Some row /\
      nth_error surprise_windows 0 = Some df /\
      nth_error surprise_windows 1 = Some next /\
      iloc_cell next 0 1 = Ok (row_load row) /\
      row_opr_net_load row = row_load row + row_bss_p_ch row /\
      iloc_col df 0 = Ok load_forecast /\
      nth_error load_forecast 0 = Some (row_forecast row) /\
      run_opt (schedule_solver idle) load_forecast
        (st_energy (init_state sample_config))
        (st_peak (init_state sample_config)) sample_config
      = Ok (mkStep (row_net_load row) (row_bss_p_ch row) (row_bss_en row)).
Proof.
  eexists. split; [vm_compute; reflexivity|].
  apply (realized_load_source (schedule_solver idle) surprise_windows
           sample_config 0 (init_state sample_config)).
  - simpl. lia.
  - reflexivity.
  - vm_compute. reflexivity.
Defined.

(** ** Too few windows *)

(** C4 (as amended).  On a sequence of fewer than two windows the loop body
    never runs: [run_operations] raises nothing and returns the empty
    trace. *)
Theorem short_sequence_empty_trace (solver : Solver)
    (dfs_mpc : list DataFrame) (config : Config) :
  (length dfs_mpc < 2)%nat ->
  run_operations solver dfs_mpc config = Ok [].
Proof.
  intro H. destruct dfs_mpc as [|w0 [|w1 r]]; simpl in H; try lia; reflexivity.
Qed.

(** C4, the claim as written fails: no error condition is reported for the
    empty sequence nor for a single window. *)
Lemma short_sequence_no_error :
  run_operations (schedule_solver idle) [] sample_config = Ok [] /\
  run_operations (schedule_solver idle) single_window sample_config
  = Ok [] /\
  ~ exists e,
      run_operations (schedule_solver idle) single_window sample_config
      = Raise e.
Proof.
  split; [reflexivity|]. split; [reflexivity|].
  intros (e & H). discriminate H.
Qed.

Lemma short_sequence_empty_trace_witness :
  (length single_window < 2)%nat /\
  run_operations (schedule_solver idle) single_window sample_config
  = Ok [].
Proof.
  split.
  - simpl. lia.
  - apply (short_sequence_empty_trace (schedule_solver idle)
             single_window sample_config).
    simpl. lia.
Defined.


(** ** The battery after one step *)

Lemma feasible_two_steps (m : Model) (v : Vars) :
  feasible m v -> (2 <= T_len m)%nat ->
  bss_en v 1 == bss_energy_start m + bss_p_ch v 0 + bss_p_ch v 1 /\
  0 <= bss_en v 1 /\ bss_en v 1 <= bss_size m.
Proof.
  intros ((_ & _ & _ & Hdom) & _ & Hc) Hl.
  destruct (Hc 0%nat ltac:(lia)) as (_ & _ & Hs0 & _).
  destruct (Hc 1%nat ltac:(lia)) as (_ & _ & Hs1 & Hcap & _).
  unfold bat_soc in Hs0, Hs1. unfold bat_lim_energy in Hcap.
  split; [rewrite Hs1, Hs0; reflexivity|].
  split; [apply Hdom; lia | exact Hcap].
Qed.

(** C3 (as amended).  For every configuration and every sequence of exactly
    two windows, with a solver whose answers satisfy the model's
    constraints, the battery state after the single realised step is the
    energy the solver computed for index 1, which equals
    [initial_energy + charge power at index 0 + charge power at index 1]
    (the latter being the charge power of the realised decision), and it
    lies within [[0, capacity]]. *)
Theorem battery_after_one_step (solver : Solver) (config : Config)
    (w0 w1 : DataFrame) (st : SimState) :
  solver_sound solver ->
  run_operations_state solver [w0; w1] config = Ok st ->
  exists load_forecast v row,
    iloc_col w0 0 = Ok load_forecast /\
    solver (build_model load_forecast
              (bat_size_kwh config * bat_initial_soc config)
              (peak_init config) config) = Some v /\
    st_operations st = [(1%nat, row)] /\
    row_bss_p_ch row = bss_p_ch v 1 /\
    row_bss_en row = st_energy st /\
    st_energy st
    == bat_size_kwh config * bat_initial_soc config
       + bss_p_ch v 0 + row_bss_p_ch row /\
    0 <= st_energy st /\ st_energy st <= bat_size_kwh config.
Proof.
  intros Hsound H. unfold run_operations_state in H.
  cbn [removelast enumerate length seq combine loop] in H.
  inv_bind H. injection H as <-.
  destruct (step_inv _ _ _ _ _ _ _ Hx)
    as (lf & sp & next & load & fc & Hlf & Hopt & _ & _ & _ & _ & Hen & Hops).
  destruct (run_opt_inv _ _ _ _ _ _ Hopt) as (v & Hl & Hv & ->).
  cbn [init_state st_energy st_peak st_operations sp_bss_en sp_bss_p_ch
       sp_net_load dict_update] in *.
  exists lf, v. eexists. split; [exact Hlf|]. split; [exact Hv|].
  split; [exact Hops|]. cbn [row_bss_p_ch row_bss_en].
  split; [reflexivity|]. split; [symmetry; exact Hen|].
  rewrite Hen.
  apply (feasible_two_steps _ v (Hsound _ _ Hv)). exact Hl.
Qed.

Lemma sample_config_valid : valid_config sample_config.
Proof. repeat split; vm_compute; congruence. Qed.

(** On the first of [shaving_windows] every minimiser of the objective
    discharges at index 0, so that no solver that answers with a minimiser
    leaves the battery at [initial_energy + charge power at index 1]. *)
Lemma shaving_forces_discharge (v : Vars) :
  optimal (build_model [10; 5] (10 * (1 # 2)) 8 sample_config) v ->
  bss_p_ch v 0 < 0 /\
  ~ bss_en v 1 == 10 * (1 # 2) + bss_p_ch v 1.
Proof.
  set (m := build_model [10; 5] (10 * (1 # 2)) 8 sample_config).
  intros (Hf & obj & Hc & Hmin).
  assert (Hf' : feasible m (schedule_vars (shift 3) m)).
  { apply feasibleb_sound. vm_compute. reflexivity. }
  specialize (Hmin _ Hf').
  injection Hc as <-.
  destruct Hf as ((Hp & Hdp & Hdm & _) & Hrel & Hcs).
  destruct (Hcs 0%nat ltac:(cbv; lia)) as (Hb0 & Hpk0 & Hs0 & _).
  destruct (Hcs 1%nat ltac:(cbv; lia)) as (_ & _ & Hs1 & _).
  unfold energy_balance, operation_peak, bat_soc, relevant_peak in *.
  cbn [bss_energy_start bss_eff bss_end_soc monthly_peak m_peak_cost m
       build_model sample_config bat_efficiency bat_end_soc_weight
       peak_cost demand_at demand nth] in *.
  set (d := bss_en v 1 - 10 * (1 # 2)) in *.
  assert (Hbound :
    (dev_peak_plus v + 8) * 1 + (dev_peak_minus v + 8) * 1
    + (1 # 10) * d ^ 2 <= 16).
  { eapply Qle_trans; [exact Hmin|]. vm_compute. discriminate. }
  assert (Hsq : 0 <= d ^ 2) by (simpl; nra).
  assert (Hd2 : d ^ 2 == 0) by lra.
  assert (Hd : d == 0).
  { simpl in Hd2. destruct (Qeq_dec d 0) as [E|E]; [exact E|].
    exfalso. assert (0 < d * d) by nra. lra. }
  assert (Hdev : dev_peak_plus v == 0 /\ dev_peak_minus v == 0) by (split; lra).
  destruct Hdev as (Hdp0 & Hdm0).
  assert (Hp0 : bss_p_ch v 0 < 0) by lra.
  split; [exact Hp0|].
  intro Habs. unfold d in Hd. lra.
Qed.

(** C3, the claim as written fails: with the sample configuration, which is
    valid, and a first window whose demand of 10 is above the incoming peak
    of 8, the solver's minimiser discharges 3 at index 0 and charges 3 at
    index 1; the battery ends at its initial 5, not at 5 + 3. *)
Lemma battery_not_initial_plus_charge :
  exists st row v,
    valid_config sample_config /\
    run_operations_state (schedule_solver (shift 3)) shaving_windows
      sample_config = Ok st /\
    st_operations st = [(1%nat, row)] /\
    schedule_solver (shift 3)
      (build_model [10; 5] (10 * (1 # 2)) 8 sample_config) = Some v /\
    optimal (build_model [10; 5] (10 * (1 # 2)) 8 sample_config) v /\
    st_energy (init_state sample_config) == 5 /\
    row_bss_p_ch row == 3 /\
    st_energy st == 5 /\
    ~ st_energy st
      == st_energy (init_state sample_config) + row_bss_p_ch row.
Proof.
  eexists. eexists. eexists.
  split; [exact sample_config_valid|].
  split; [vm_compute; reflexivity|].
  split; [reflexivity|].
  split; [vm_compute; reflexivity|].
  split.
  { eapply optimal_at_bound.
    - vm_compute. discriminate.
    - vm_compute. discriminate.
    - reflexivity.
    - apply feasibleb_sound. vm_compute. reflexivity.
    - vm_compute. reflexivity. }
  repeat split; try (vm_compute; reflexivity).
  vm_compute. discriminate.
Qed.

Lemma battery_after_one_step_witness :
  exists st,
    run_operations_state (schedule_solver (shift 3)) shaving_windows
      sample_config = Ok st /\
    exists load_forecast v row,
      iloc_col (window [10; 5] [10; 5]) 0 = Ok load_forecast /\
      schedule_solver (shift 3)
        (build_model load_forecast
           (bat_size_kwh sample_config * bat_initial_soc sample_config)
           (peak_init sample_config) sample_config) = Some v /\
      st_operations st = [(1%nat, row)] /\
      row_bss_p_ch row = bss_p_ch v 1 /\
      row_bss_en row = st_energy st /\
      st_energy st
      == bat_size_kwh sample_config * bat_initial_soc sample_config
         + bss_p_ch v 0 + row_bss_p_ch row /\
      0 <= st_energy st /\ st_energy st <= bat_size_kwh sample_config.
Proof.
  eexists. split; [vm_compute; reflexivity|].
  apply (battery_after_one_step (schedule_solver (shift 3)) sample_config
           (window [10; 5] [10; 5]) (window [5; 5] [5; 5])).
  - apply schedule_solver_sound.
  - vm_compute. reflexivity.
Defined.


(** ** The objective *)

(** C5.  The objective of the model that [run_opt] builds from a forecast
    window of length [H >= 1], the battery energy, the incoming running peak
    and the configuration is
    [(dev_peak_plus + monthly_peak) * peak_cost
     + (dev_peak_minus + monthly_peak) * peak_cost
     + terminal_weight * (battery_energy[H-1] - initial_energy)^2],
    with [terminal_weight] the configuration's [bat_end_soc_weight] and
    [monthly_peak] the incoming peak; it is this function that a minimiser
    minimises. *)
Theorem objective_formula (x : Q) (load_forecast : list Q) (bss_energy pk : Q)
    (config : Config) :
  let m := build_model (x :: load_forecast) bss_energy pk config in
  let H := length (x :: load_forecast) in
  cost m
  = Ok (fun v =>
          spec_objective (dev_peak_plus v) (dev_peak_minus v) pk
            (peak_cost config) (bat_end_soc_weight config)
            (bss_en v (H - 1)) bss_energy) /\
  forall v, optimal m v ->
    forall v', feasible m v' ->
      spec_objective (dev_peak_plus v) (dev_peak_minus v) pk
        (peak_cost config) (bat_end_soc_weight config)
        (bss_en v (H - 1)) bss_energy
      <= spec_objective (dev_peak_plus v') (dev_peak_minus v') pk
           (peak_cost config) (bat_end_soc_weight config)
           (bss_en v' (H - 1)) bss_energy.
Proof.
  intros m H.
  assert (Hc : cost m
    = Ok (fun v =>
          spec_objective (dev_peak_plus v) (dev_peak_minus v) pk
            (peak_cost config) (bat_end_soc_weight config)
            (bss_en v (H - 1)) bss_energy)).
  { unfold cost, spec_objective, H, m, T_len. cbn [demand build_model length].
    rewrite Nat.sub_succ, Nat.sub_0_r. reflexivity. }
  split; [exact Hc|].
  intros v (_ & obj & Hobj & Hmin) v' Hf'.
  rewrite Hc in Hobj. injection Hobj as <-. apply Hmin, Hf'.
Qed.

(** ** The cost of a trace *)

Lemma series_max_spec (x : Q) (l : list Q) :
  exists mx,
    series_max (x :: l) = Ok mx /\
    In mx (x :: l) /\ forall y, In y (x :: l) -> y <= mx.
Proof.
  exists (max_from x l). split; [reflexivity|]. split.
  - destruct (max_from_in l x) as [-> | H]; [left; reflexivity | right; exact H].
  - intros y [<- | Hy]; [apply max_from_ge_acc | apply max_from_ge_elt, Hy].
Qed.

(** C6 (as amended).  For every non-empty trace and every configuration,
    the cost is [total_cost = mx * peak_cost], where [mx] is the largest
    realised net load of the trace; it is the same for any trace with the
    same realised net loads and any configuration with the same
    [peak_cost].  With [peak_cost] scaled by a positive [k] on the same
    trace the cost is [mx * (k * peak_cost)], which is [k] times the cost in
    exact arithmetic; on the floats of the program the cost is the
    binary64 product of the maximum and the price, and the scaled cost the
    binary64 product of the maximum and the binary64 product [k * peak_cost],
    each rounded. *)
Theorem cost_is_peak_times_price (df_operations : Operations)
    (config : Config) :
  df_operations <> [] ->
  exists mx,
    In mx (column row_opr_net_load df_operations) /\
    (forall y, In y (column row_opr_net_load df_operations) -> y <= mx) /\
    calculate_operational_costs df_operations config
    = Ok {| total_cost := mx * peak_cost config |} /\
    (forall df_operations' config',
       column row_opr_net_load df_operations'
       = column row_opr_net_load df_operations ->
       peak_cost config' = peak_cost config ->
       calculate_operational_costs df_operations' config'
       = calculate_operational_costs df_operations config) /\
    (forall k, 0 < k ->
       exists c',
         calculate_operational_costs df_operations
           (with_peak_cost config (k * peak_cost config)) = Ok c' /\
         total_cost c' = mx * (k * peak_cost config) /\
         total_cost c' == k * (mx * peak_cost config)) /\
    (forall (opr_net_load : list float) (peak_cost_b64 k_b64 : float),
       opr_net_load <> [] ->
       calculate_operational_costs_b64 opr_net_load peak_cost_b64
       = Ok (PrimFloat.mul (series_max_b64 opr_net_load) peak_cost_b64) /\
       calculate_operational_costs_b64 opr_net_load
         (PrimFloat.mul k_b64 peak_cost_b64)
       = Ok (PrimFloat.mul (series_max_b64 opr_net_load)
               (PrimFloat.mul k_b64 peak_cost_b64))).
Proof.
  intro Hne. destruct df_operations as [|[k0 r0] rest]; [congruence|].
  destruct (series_max_spec (row_opr_net_load r0)
              (column row_opr_net_load rest)) as (mx & Hmx & Hin & Hub).
  exists mx.
  assert (Hcost : forall c,
    calculate_operational_costs ((k0, r0) :: rest) c
    = Ok {| total_cost := mx * peak_cost c |}).
  { intro c. unfold calculate_operational_costs, column_opr_net_load.
    cbn [bind]. change (map (fun kr => row_opr_net_load (snd kr)) ((k0, r0) :: rest))
      with (row_opr_net_load r0 :: column row_opr_net_load rest).
    rewrite Hmx. reflexivity. }
  split; [exact Hin|]. split; [exact Hub|]. split; [apply Hcost|].
  split; [|split].
  - intros ops' c' Hcol Hpc. rewrite Hcost.
    destruct ops' as [|[k1 r1] rest']; [discriminate Hcol|].
    unfold calculate_operational_costs, column_opr_net_load. cbn [bind].
    change (map (fun kr => row_opr_net_load (snd kr)) ((k1, r1) :: rest'))
      with (column row_opr_net_load ((k1, r1) :: rest')).
    rewrite Hcol.
    change (column row_opr_net_load ((k0, r0) :: rest))
      with (row_opr_net_load r0 :: column row_opr_net_load rest).
    rewrite Hmx. cbn [bind]. rewrite Hpc. reflexivity.
  - intros k Hk. eexists. split; [apply Hcost|].
    cbn [total_cost with_peak_cost peak_cost]. split; [reflexivity | ring].
  - intros col pcb kb Hcol.
    destruct col as [|x r]; [congruence|]. split; reflexivity.
Qed.

(** C6, the claim as written fails on the floats of the program: with a
    largest realised net load of 0.3, a price of 0.2 and the factor 0.1, the
    cost at the scaled price, [0.3 * (0.1 * 0.2)], is not 0.1 times the cost
    at the price, [0.1 * (0.3 * 0.2)]. *)
Lemma scaling_not_exact_in_binary64 :
  exists total total',
    calculate_operational_costs_b64 [three_tenths] fifth = Ok total /\
    calculate_operational_costs_b64 [three_tenths] (PrimFloat.mul tenth fifth)
    = Ok total' /\
    PrimFloat.ltb 0%float tenth = true /\
    PrimFloat.eqb total' (PrimFloat.mul tenth total) = false.
Proof.
  eexists. eexists.
  split; [vm_compute; reflexivity|].
  split; [vm_compute; reflexivity|].
  split; vm_compute; reflexivity.
Qed.

Lemma cost_is_peak_times_price_witness :
  exists ops,
    run_operations (schedule_solver idle) example_windows sample_config
    = Ok ops /\
    exists mx,
      In mx (column row_opr_net_load ops) /\
      (forall y, In y (column row_opr_net_load ops) -> y <= mx) /\
      calculate_operational_costs ops sample_config
      = Ok {| total_cost := mx * peak_cost sample_config |} /\
      (forall df_operations' config',
         column row_opr_net_load df_operations'
         = column row_opr_net_load ops ->
         peak_cost config' = peak_cost sample_config ->
         calculate_operational_costs df_operations' config'
         = calculate_operational_costs ops sample_config) /\
      (forall k, 0 < k ->
         exists c',
           calculate_operational_costs ops
             (with_peak_cost sample_config (k * peak_cost sample_config))
           = Ok c' /\
           total_cost c' = mx * (k * peak_cost sample_config) /\
           total_cost c' == k * (mx * peak_cost sample_config)) /\
      (forall (opr_net_load : list float) (peak_cost_b64 k_b64 : float),
         opr_net_load <> [] ->
         calculate_operational_costs_b64 opr_net_load peak_cost_b64
         = Ok (PrimFloat.mul (series_max_b64 opr_net_load) peak_cost_b64) /\
         calculate_operational_costs_b64 opr_net_load
           (PrimFloat.mul k_b64 peak_cost_b64)
         = Ok (PrimFloat.mul (series_max_b64 opr_net_load)
                 (PrimFloat.mul k_b64 peak_cost_b64))).
Proof.
  eexists. split; [vm_compute; reflexivity|].
  apply cost_is_peak_times_price. discriminate.
Defined.

Lemma shift_optimal :
  optimal (build_model [10; 5] (10 * (1 # 2)) 8 sample_config)
    (schedule_vars (shift 3)
       (build_model [10; 5] (10 * (1 # 2)) 8 sample_config)).
Proof.
  eapply optimal_at_bound.
  - vm_compute. discriminate.
  - vm_compute. discriminate.
  - reflexivity.
  - apply feasibleb_sound. vm_compute. reflexivity.
  - vm_compute. reflexivity.
Qed.

Lemma objective_formula_witness :
  let m := build_model [10; 5] (10 * (1 # 2)) 8 sample_config in
  let v := schedule_vars (shift 3) m in
  cost m
  = Ok (fun v =>
          spec_objective (dev_peak_plus v) (dev_peak_minus v) 8
            (peak_cost sample_config) (bat_end_soc_weight sample_config)
            (bss_en v 1) (10 * (1 # 2))) /\
  forall v', feasible m v' ->
    spec_objective (dev_peak_plus v) (dev_peak_minus v) 8
      (peak_cost sample_config) (bat_end_soc_weight sample_config)
      (bss_en v 1) (10 * (1 # 2))
    <= spec_objective (dev_peak_plus v') (dev_peak_minus v') 8
         (peak_cost sample_config) (bat_end_soc_weight sample_config)
         (bss_en v' 1) (10 * (1 # 2)).
Proof.
  intros m v.
  destruct (objective_formula 10 [5] (10 * (1 # 2)) 8 sample_config)
    as [Hcost Hmin].
  split.
  - exact Hcost.
  - exact (Hmin v shift_optimal).
Defined.

(** ** Extracting the decision *)

(** C9.  On a forecast window of length 1, [run_opt] returns no decision:
    whatever values the solver yields, reading row 1 of the one-row result
    table is an [IndexError]. *)
Theorem run_opt_needs_two_rows (solver : Solver) (load_forecast : list Q)
    (bss_energy pk : Q) (config : Config) :
  length load_forecast = 1%nat ->
  (forall sp, run_opt solver load_forecast bss_energy pk config <> Ok sp) /\
  (forall v,
     solver (build_model load_forecast bss_energy pk config) = Some v ->
     length (res_df (build_model load_forecast bss_energy pk config) v) = 1%nat /\
     run_opt solver load_forecast bss_energy pk config = Raise IndexError).
Proof.
  intro Hl. split.
  - intros sp H. destruct (run_opt_inv _ _ _ _ _ _ H) as (v & Hl2 & _). lia.
  - intros v Hv. split.
    + rewrite length_res_df. exact Hl.
    + destruct load_forecast as [|x [|y r]]; try discriminate Hl.
      unfold run_opt. cbn [cost T_len demand build_model length bind].
      rewrite Hv. reflexivity.
Qed.

(** A decision is returned exactly from windows of length at least 2, where
    it is row 1 of the solved values. *)
Lemma run_opt_defined_iff (solver : Solver) (load_forecast : list Q)
    (bss_energy pk : Q) (config : Config) (v : Vars) :
  solver (build_model load_forecast bss_energy pk config) = Some v ->
  (exists sp, run_opt solver load_forecast bss_energy pk config = Ok sp)
  <-> (2 <= length load_forecast)%nat.
Proof.
  intro Hv. split.
  - intros (sp & H). destruct (run_opt_inv _ _ _ _ _ _ H) as (_ & Hl & _).
    exact Hl.
  - intro Hl. eexists. apply run_opt_Ok; eassumption.
Qed.

Lemma run_opt_needs_two_rows_witness :
  length [5] = 1%nat /\
  (forall sp,
     run_opt (schedule_solver idle) [5] (10 * (1 # 2)) 8 sample_config
     <> Ok sp) /\
  (forall v,
     schedule_solver idle (build_model [5] (10 * (1 # 2)) 8 sample_config)
     = Some v ->
     length (res_df (build_model [5] (10 * (1 # 2)) 8 sample_config) v)
     = 1%nat /\
     run_opt (schedule_solver idle) [5] (10 * (1 # 2)) 8 sample_config
     = Raise IndexError).
Proof.
  split.
  - reflexivity.
  - apply (run_opt_needs_two_rows (schedule_solver idle) [5] (10 * (1 # 2)) 8
             sample_config).
    reflexivity.
Defined.


(** ** The normalisation *)

Lemma gt_stats (gt : TimeSeries) :
  gt <> [] ->
  exists mn mx,
    gt_min gt = Ok mn /\ gt_max gt = Ok mx /\
    In mn (values gt) /\ In mx (values gt) /\
    forall x, In x (values gt) -> mn <= x /\ x <= mx.
Proof.
  intro Hne. destruct gt as [|[i x] r]; [congruence|].
  exists (min_from x (values r)), (max_from x (values r)).
  split; [reflexivity|]. split; [reflexivity|].
  cbn [values map snd]. fold (values r).
  split.
  { destruct (min_from_in (values r) x) as [-> | H];
      [left; reflexivity | right; exact H]. }
  split.
  { destruct (max_from_in (values r) x) as [-> | H];
      [left; reflexivity | right; exact H]. }
  intros y [<- | Hy]; split.
  - apply min_from_le_acc.
  - apply max_from_ge_acc.
  - apply min_from_le_elt, Hy.
  - apply max_from_ge_elt, Hy.
Qed.

Lemma Qeq_bool_false (a b : Q) : Qeq_bool a b = false <-> ~ a == b.
Proof.
  split.
  - intros H E. apply Qeq_bool_iff in E. congruence.
  - intro H. destruct (Qeq_bool a b) eqn:E; [|reflexivity].
    apply Qeq_bool_iff in E. contradiction.
Qed.

Lemma join_left_outcome (ts gt : TimeSeries) :
  (exists g, join_left ts gt = Ok g) \/ join_left ts gt = Raise NonFinite.
Proof.
  unfold join_left. induction ts as [|[i x] r IH]; cbn [mapM fst].
  - left. eexists. reflexivity.
  - destruct (lookup gt i) as [y|]; cbn [of_option bind]; [|right; reflexivity].
    destruct IH as [(g & ->) | ->]; cbn [bind].
    + left. eexists. reflexivity.
    + right. reflexivity.
Qed.

(** Once a cell has no scaled counterpart, neither has any window that has
    a row. *)
Lemma windows_undefined (gt ts : TimeSeries) :
  (forall x, scale (gt_min gt) (gt_max gt) x = Raise NonFinite) ->
  ts <> [] ->
  window_model gt ts = Raise NonFinite /\ window_gt gt ts = Raise NonFinite.
Proof.
  intros Hs Hne. destruct ts as [|[i x] r]; [congruence|].
  unfold window_model, window_gt.
  destruct (join_left_outcome ((i, x) :: r) gt) as [(g & ->) | ->];
    [|split; reflexivity].
  cbn [bind]. unfold scale_frame. cbn [mapM values map snd].
  rewrite Hs. split; reflexivity.
Qed.

(** C10.  [run_nle] scales every value as
    [(x - gt_min) / (gt_max - gt_min)] with the ground truth's own minimum
    and maximum and tests nothing before dividing: on a ground truth whose
    values are all equal the divisor is zero, no value has a scaled
    counterpart and no window with a row can be built; the quotient is
    defined, for any value, exactly when [gt_max > gt_min]. *)
Theorem normalisation_divisor (gt : TimeSeries) :
  gt <> [] ->
  exists mn mx,
    gt_min gt = Ok mn /\ gt_max gt = Ok mx /\ mn <= mx /\
    ((forall a b, In a (values gt) -> In b (values gt) -> a == b) ->
     mx - mn == 0 /\
     (forall x, scale (gt_min gt) (gt_max gt) x = Raise NonFinite) /\
     (forall ts, ts <> [] ->
        window_model gt ts = Raise NonFinite /\
        window_gt gt ts = Raise NonFinite)) /\
    (forall x,
       (exists y, scale (gt_min gt) (gt_max gt) x = Ok y) <-> mn < mx) /\
    (forall x, mn < mx ->
       scale (gt_min gt) (gt_max gt) x = Ok ((x - mn) / (mx - mn))).
Proof.
  intro Hne.
  destruct (gt_stats gt Hne) as (mn & mx & Hmn & Hmx & Imn & Imx & Hb).
  exists mn, mx.
  assert (Hle : mn <= mx) by (apply (Hb mn Imn)).
  split; [exact Hmn|]. split; [exact Hmx|]. split; [exact Hle|].
  assert (Hpos : mn < mx -> Qeq_bool (mx - mn) 0 = false).
  { intro Hlt. apply Qeq_bool_false. intro E. lra. }
  split; [|split].
  - intro Hall. assert (E : mx - mn == 0).
    { rewrite (Hall mx mn Imx Imn). ring. }
    split; [exact E|].
    assert (Hs : forall x, scale (gt_min gt) (gt_max gt) x = Raise NonFinite).
    { intro x. unfold scale. rewrite Hmn, Hmx. cbn [bind].
      apply Qeq_bool_iff in E. rewrite E. reflexivity. }
    split; [exact Hs|]. intros ts Hts. apply windows_undefined; assumption.
  - intro x. unfold scale. rewrite Hmn, Hmx. cbn [bind]. split.
    + intros (y & H). destruct (Qeq_bool (mx - mn) 0) eqn:E; [discriminate|].
      apply Qeq_bool_false in E. apply Qnot_le_lt. intro Hge. apply E. lra.
    + intro Hlt. rewrite (Hpos Hlt). eexists. reflexivity.
  - intros x Hlt. unfold scale. rewrite Hmn, Hmx. cbn [bind].
    rewrite (Hpos Hlt). reflexivity.
Qed.

Lemma normalisation_divisor_witness :
  flat_truth <> [] /\
  exists mn mx,
    gt_min flat_truth = Ok mn /\ gt_max flat_truth = Ok mx /\ mn <= mx /\
    ((forall a b,
        In a (values flat_truth) -> In b (values flat_truth) -> a == b) ->
     mx - mn == 0 /\
     (forall x, scale (gt_min flat_truth) (gt_max flat_truth) x
                = Raise NonFinite) /\
     (forall ts, ts <> [] ->
        window_model flat_truth ts = Raise NonFinite /\
        window_gt flat_truth ts = Raise NonFinite)) /\
    (forall x,
       (exists y, scale (gt_min flat_truth) (gt_max flat_truth) x = Ok y)
       <-> mn < mx) /\
    (forall x, mn < mx ->
       scale (gt_min flat_truth) (gt_max flat_truth) x
       = Ok ((x - mn) / (mx - mn))).
Proof.
  split.
  - discriminate.
  - apply (normalisation_divisor flat_truth). discriminate.
Defined.

(** On the flat ground truth the whole run ends on the non-finite values. *)
Example run_nle_flat_truth :
  run_nle (schedule_solver idle) sample_config perfect_forecasts flat_truth
  = Raise NonFinite.
Proof. reflexivity. Qed.

(** ** The length and the keys of the trace *)

Lemma step_total (solver : Solver) (dfs_mpc : list DataFrame)
    (config : Config) (st : SimState) (t : nat) (df next : DataFrame) :
  window_ok df = true -> window_ok next = true ->
  nth_error dfs_mpc (S t) = Some next ->
  (forall lf, iloc_col df 0 = Ok lf ->
     solver (build_model lf (st_energy st) (st_peak st) config) <> None) ->
  exists st', step solver dfs_mpc config st t df = Ok st'.
Proof.
  intros Hdf Hnext Hn Hsolve.
  destruct df as [|c0 [|c1 rest]]; try discriminate Hdf.
  destruct next as [|n0 [|n1 rest']]; try discriminate Hnext.
  cbn [window_ok] in Hdf, Hnext.
  apply andb_true_iff in Hdf, Hnext.
  destruct Hdf as (Hc0 & _). destruct Hnext as (Hn0 & Hn1).
  apply Nat.leb_le in Hc0, Hn0, Hn1.
  destruct (solver (build_model c0 (st_energy st) (st_peak st) config))
    as [v|] eqn:Hv; [|exfalso; apply (Hsolve c0 eq_refl Hv)].
  unfold step. rewrite Hn. cbn [iloc_col nth_error of_option bind].
  rewrite (run_opt_Ok _ _ _ _ _ v Hc0 Hv).
  cbn [of_option bind iloc_cell iloc_col nth_error].
  destruct n1 as [|y1 n1]; [simpl in Hn1; lia|].
  destruct n0 as [|y0 n0]; [simpl in Hn0; lia|].
  destruct c0 as [|x0 c0]; [simpl in Hc0; lia|].
  cbn [nth_error of_option bind sp_bss_p_ch].
  unfold update_peak.
  destruct (Qltb (st_peak st) (y1 + bss_p_ch v 1));
    cbn [iloc_col nth_error of_option bind py_max]; eexists; reflexivity.
Qed.

(** C8.  For every sequence of [N >= 2] windows and every configuration, a
    trace that [run_operations] returns has exactly [N-1] rows, keyed by the
    realised time indices [1, ..., N-1] in this order; and it does return
    one when every window has its two columns, with at least two forecasts
    and a realised load, and the solver yields values at every step. *)
Theorem trace_length_and_keys (solver : Solver) (dfs_mpc : list DataFrame)
    (config : Config) (N : nat) :
  length dfs_mpc = N -> (2 <= N)%nat ->
  (forall ops,
     run_operations solver dfs_mpc config = Ok ops ->
     length ops = (N - 1)%nat /\ keys ops = seq 1 (N - 1)) /\
  (forallb window_ok dfs_mpc = true ->
   (forall k st lf,
      (S k < N)%nat ->
      state_after solver dfs_mpc config k = Ok st ->
      iloc_col (nth k dfs_mpc []) 0 = Ok lf ->
      solver (build_model lf (st_energy st) (st_peak st) config) <> None) ->
   exists ops,
     run_operations solver dfs_mpc config = Ok ops /\
     length ops = (N - 1)%nat /\ keys ops = seq 1 (N - 1)).
Proof.
  intros HN H2.
  assert (Hshape : forall ops,
    run_operations solver dfs_mpc config = Ok ops ->
    length ops = (N - 1)%nat /\ keys ops = seq 1 (N - 1)).
  { intros ops H. unfold run_operations in H. inv_bind H. injection H as <-.
    rewrite state_after_end, HN in Hx.
    assert (Hk : keys (st_operations x) = seq 1 (N - 1)).
    { apply (keys_after solver dfs_mpc config (N - 1) x); [lia | exact Hx]. }
    split; [|exact Hk].
    rewrite <- (length_map fst). fold (keys (st_operations x)).
    rewrite Hk. apply length_seq. }
  split; [exact Hshape|].
  intros Hok Hsolve.
  assert (Hreach : forall k, (k < N)%nat ->
    exists st, state_after solver dfs_mpc config k = Ok st).
  { induction k as [|k IH]; intro Hk.
    - eexists. apply state_after_O.
    - destruct (IH ltac:(lia)) as (st & Hst).
      destruct (window_at dfs_mpc k ltac:(lia)) as (df & next & H1 & H3 & H4).
      rewrite (state_after_S _ _ _ k df H1), Hst. cbn [bind].
      rewrite forallb_forall in Hok.
      apply (step_total solver dfs_mpc config st k df next).
      + apply Hok. eapply nth_error_In, H3.
      + apply Hok. eapply nth_error_In, H4.
      + exact H4.
      + intros lf Hlf. apply (Hsolve k st lf Hk Hst).
        rewrite (nth_error_nth _ _ _ H3). exact Hlf. }
  destruct (Hreach (N - 1)%nat ltac:(lia)) as (st & Hst).
  assert (Hrun : run_operations solver dfs_mpc config = Ok (st_operations st)).
  { unfold run_operations. rewrite state_after_end, HN, Hst. reflexivity. }
  exists (st_operations st). split; [exact Hrun|]. apply Hshape, Hrun.
Qed.

Lemma trace_length_and_keys_witness :
  length example_windows = 3%nat /\ (2 <= 3)%nat /\
  exists ops,
    run_operations (schedule_solver idle) example_windows sample_config
    = Ok ops /\
    length ops = 2%nat /\ keys ops = [1%nat; 2%nat].
Proof.
  split; [reflexivity|]. split; [lia|].
  destruct (trace_length_and_keys (schedule_solver idle) example_windows
              sample_config 3 eq_refl ltac:(lia)) as [_ Hrun].
  apply Hrun.
  - reflexivity.
  - intros k st lf Hk Hst Hlf.
    destruct k as [|[|k]]; [| |lia];
      vm_compute in Hst; injection Hst as <-;
      vm_compute in Hlf; injection Hlf as <-;
      vm_compute; discriminate.
Defined.


(** ** The score *)








(** * Further properties of [bin/nle.py] *)

(** ** The constraints of the model *)

Lemma Qnat_S (n : nat) : Qnat (S n) == Qnat n + 1.
Proof.
  unfold Qnat. rewrite Nat2Z.inj_succ, <- Z.add_1_r, inject_Z_plus.
  reflexivity.
Qed.

(** X1.  At a point that satisfies the constraints, the battery energy at
    every index [t] of the horizon is the initial energy plus the charge
    powers up to [t], and it is no further than [(t+1) * max power] from the
    initial energy. *)
Theorem battery_trajectory (m : Model) (v : Vars) (t : nat) :
  feasible m v -> (t < T_len m)%nat ->
  bss_en v t == energy_after (bss_energy_start m) (bss_p_ch v) t /\
  Qabs (bss_en v t - bss_energy_start m) <= Qnat (S t) * bss_max_pow m.
Proof.
  intros (_ & _ & Hc) Ht. induction t as [|t IH].
  - destruct (Hc 0%nat Ht) as (_ & _ & Hs & _ & Hp & Hn).
    unfold bat_soc, bat_lim_power_pos, bat_lim_power_neg in *. cbn [energy_after].
    split; [exact Hs|]. apply Qabs_Qle_condition.
    change (Qnat 1) with 1. split; lra.
  - destruct (IH ltac:(lia)) as (IH1 & IH2).
    destruct (Hc (S t) Ht) as (_ & _ & Hs & _ & Hp & Hn).
    unfold bat_soc, bat_lim_power_pos, bat_lim_power_neg in *. cbn [energy_after].
    split; [rewrite Hs, IH1; reflexivity|].
    apply Qabs_Qle_condition in IH2. apply Qabs_Qle_condition.
    rewrite (Qnat_S (S t)). split; lra.
Qed.

Lemma battery_trajectory_witness :
  let m := build_model [10; 5] (10 * (1 # 2)) 8 sample_config in
  let v := schedule_vars (shift 3) m in
  bss_en v 1 == energy_after (bss_energy_start m) (bss_p_ch v) 1 /\
  Qabs (bss_en v 1 - bss_energy_start m) <= Qnat 2 * bss_max_pow m.
Proof.
  intros m v. apply (battery_trajectory m v 1).
  - apply feasibleb_sound. vm_compute. reflexivity.
  - vm_compute. lia.
Defined.

Lemma energy_after_idle (start : Q) (t : nat) :
  energy_after start idle t == start.
Proof.
  induction t as [|t IH]; cbn [energy_after]; unfold idle in *.
  - ring.
  - rewrite IH. ring.
Qed.

(** X2.  Whenever the battery energy handed to [run_opt] lies within the
    battery's size and the power limit is not negative, the constraints of
    the model have a solution, the one that leaves the battery alone; this
    holds for every forecast and every incoming peak. *)
Theorem idle_is_feasible (m : Model) :
  0 <= bss_energy_start m -> bss_energy_start m <= bss_size m ->
  0 <= bss_max_pow m ->
  feasible m (schedule_vars idle m) /\
  forall t, bss_p_ch (schedule_vars idle m) t == 0 /\
            net_load (schedule_vars idle m) t == demand_at m t.
Proof.
  intros H0 H1 H2. split.
  - split; [|split].
    + unfold domains. cbn [schedule_vars peak dev_peak_plus dev_peak_minus bss_en].
      set (pk := max_from (monthly_peak m) _).
      assert (Hmp : monthly_peak m <= pk) by apply max_from_ge_acc.
      assert (Hz : 0 <= pk) by (apply max_from_ge_elt; left; reflexivity).
      split; [exact Hz|]. split; [lra|]. split; [apply Qle_refl|].
      intros t _. rewrite energy_after_idle. exact H0.
    + unfold relevant_peak. cbn [schedule_vars peak dev_peak_plus dev_peak_minus].
      ring.
    + intros t Ht.
      unfold energy_balance, operation_peak, bat_soc, bat_lim_energy,
        bat_lim_power_pos, bat_lim_power_neg.
      cbn [schedule_vars net_load peak bss_p_ch bss_en].
      split; [reflexivity|]. split.
      { apply max_from_ge_elt. right.
        apply (in_map (fun t => bss_eff m * idle t + demand_at m t)).
        unfold T. apply in_seq. lia. }
      split; [destruct t; reflexivity|].
      split; [rewrite energy_after_idle; exact H1|].
      unfold idle. split; lra.
  - intro t. cbn [schedule_vars bss_p_ch net_load]. unfold idle.
    split; [reflexivity | ring].
Qed.

Lemma idle_is_feasible_witness :
  let m := build_model [10; 12; 9] (10 * (1 # 2)) 8 sample_config in
  feasible m (schedule_vars idle m) /\
  forall t, bss_p_ch (schedule_vars idle m) t == 0 /\
            net_load (schedule_vars idle m) t == demand_at m t.
Proof.
  intro m. apply (idle_is_feasible m); vm_compute; discriminate.
Defined.

(** ** The objective at feasible points and at minimisers *)

Lemma cost_value (m : Model) (obj : Vars -> Q) (v : Vars) :
  cost m = Ok obj ->
  obj v
  == 2 * monthly_peak m * m_peak_cost m
     + (dev_peak_plus v + dev_peak_minus v) * m_peak_cost m
     + bss_end_soc m * (bss_en v (T_len m - 1) - bss_energy_start m) ^ 2.
Proof.
  unfold cost. destruct (T_len m) as [|last]; [discriminate|].
  intro H. injection H as <-. cbv zeta.
  rewrite Nat.sub_succ, Nat.sub_0_r. ring.
Qed.

(** X3.  At every point that satisfies the constraints the two deviations
    add up to at least the distance between the horizon's peak and the
    incoming peak, so that, with a non-negative price and terminal weight,
    the objective is at least
    [2 * monthly_peak * peak_cost + |peak - monthly_peak| * peak_cost]:
    a horizon peak below the incoming peak is charged like one above it. *)
Theorem objective_charges_both_signs (m : Model) (obj : Vars -> Q) (v : Vars) :
  cost m = Ok obj -> feasible m v ->
  0 <= m_peak_cost m -> 0 <= bss_end_soc m ->
  Qabs (peak v - monthly_peak m) <= dev_peak_plus v + dev_peak_minus v /\
  2 * monthly_peak m * m_peak_cost m
  + Qabs (peak v - monthly_peak m) * m_peak_cost m <= obj v.
Proof.
  intros Hc ((_ & Hdp & Hdm & _) & Hrel & _) Hpc Hw.
  unfold relevant_peak in Hrel.
  assert (Habs : Qabs (peak v - monthly_peak m)
                 <= dev_peak_plus v + dev_peak_minus v).
  { apply Qabs_Qle_condition. split; lra. }
  split; [exact Habs|].
  rewrite (cost_value m obj v Hc).
  set (d := bss_en v (T_len m - 1) - bss_energy_start m).
  assert (Hsq : 0 <= bss_end_soc m * d ^ 2).
  { apply Qmult_le_0_compat; [exact Hw|]. simpl. nra. }
  assert (Hmul : Qabs (peak v - monthly_peak m) * m_peak_cost m
                 <= (dev_peak_plus v + dev_peak_minus v) * m_peak_cost m).
  { apply Qmult_le_compat_r; assumption. }
  lra.
Qed.

Lemma objective_charges_both_signs_witness :
  let m := build_model [10; 5] (10 * (1 # 2)) 8 sample_config in
  let v := schedule_vars idle m in
  exists obj,
    cost m = Ok obj /\
    Qabs (peak v - monthly_peak m) <= dev_peak_plus v + dev_peak_minus v /\
    2 * monthly_peak m * m_peak_cost m
    + Qabs (peak v - monthly_peak m) * m_peak_cost m <= obj v.
Proof.
  intros m v. eexists. split; [reflexivity|].
  apply (objective_charges_both_signs m _ v).
  - reflexivity.
  - apply feasibleb_sound. vm_compute. reflexivity.
  - vm_compute. discriminate.
  - vm_compute. discriminate.
Defined.

(** The point [v] with both deviations lowered by [delta]. *)
Lemma lower_deviations_feasible (m : Model) (v : Vars) (delta : Q) :
  feasible m v ->
  delta <= dev_peak_plus v -> delta <= dev_peak_minus v ->
  feasible m
    {| net_load := net_load v; peak := peak v;
       dev_peak_plus := dev_peak_plus v - delta;
       dev_peak_minus := dev_peak_minus v - delta;
       bss_p_ch := bss_p_ch v; bss_en := bss_en v |}.
Proof.
  intros ((Hp & Hdp & Hdm & Hen) & Hrel & Hc) H1 H2.
  split; [|split].
  - unfold domains. cbn. repeat split; try assumption; lra.
  - unfold relevant_peak in *. cbn. lra.
  - exact Hc.
Qed.

(** X4.  With a positive price, a minimiser of the objective has at most
    one of the two deviations different from zero, and their sum is the
    distance between the horizon's peak and the incoming peak. *)
Theorem minimiser_one_deviation (m : Model) (v : Vars) :
  optimal m v -> 0 < m_peak_cost m ->
  (dev_peak_plus v == 0 \/ dev_peak_minus v == 0) /\
  dev_peak_plus v + dev_peak_minus v == Qabs (peak v - monthly_peak m).
Proof.
  intros (Hf & obj & Hc & Hmin) Hpc.
  pose proof Hf as ((_ & Hdp & Hdm & _) & Hrel & _).
  unfold relevant_peak in Hrel.
  assert (Hone : dev_peak_plus v == 0 \/ dev_peak_minus v == 0).
  { destruct (Qlt_le_dec 0 (dev_peak_plus v)) as [Hp|Hp]; [|left; lra].
    destruct (Qlt_le_dec 0 (dev_peak_minus v)) as [Hm|Hm]; [|right; lra].
    exfalso.
    set (delta := Qmin (dev_peak_plus v) (dev_peak_minus v)).
    assert (Hd1 : delta <= dev_peak_plus v) by apply Q.le_min_l.
    assert (Hd2 : delta <= dev_peak_minus v) by apply Q.le_min_r.
    assert (Hd0 : 0 < delta).
    { unfold delta. apply Q.min_glb_lt; assumption. }
    pose proof (Hmin _ (lower_deviations_feasible m v delta Hf Hd1 Hd2)) as Hle.
    rewrite (cost_value m obj v Hc) in Hle.
    rewrite (cost_value m obj _ Hc) in Hle. cbn in Hle.
    assert (0 < delta * m_peak_cost m) by (apply Qmult_lt_0_compat; assumption).
    lra. }
  split; [exact Hone|].
  destruct Hone as [E|E].
  - assert (Hle : peak v - monthly_peak m <= 0) by lra.
    rewrite (Qabs_neg _ Hle). lra.
  - assert (Hge : 0 <= peak v - monthly_peak m) by lra.
    rewrite (Qabs_pos _ Hge). lra.
Qed.

Lemma minimiser_one_deviation_witness :
  let m := build_model [10; 5] (10 * (1 # 2)) 8 sample_config in
  let v := schedule_vars (shift 3) m in
  (dev_peak_plus v == 0 \/ dev_peak_minus v == 0) /\
  dev_peak_plus v + dev_peak_minus v == Qabs (peak v - monthly_peak m).
Proof.
  intros m v. apply (minimiser_one_deviation m v).
  - exact shift_optimal.
  - vm_compute. reflexivity.
Defined.

(** ** Episodes, row by row *)

Section Episode.
Variable solver : Solver.
Variable dfs_mpc : list DataFrame.
Variable config : Config.

Local Abbreviation reach := (state_after solver dfs_mpc config).

(** Everything an iteration does, between the state before and after. *)
Lemma episode_step (k : nat) (st st' : SimState) :
  (S k < length dfs_mpc)%nat ->
  reach k = Ok st -> reach (S k) = Ok st' ->
  exists df next lf v load fc,
    nth_error dfs_mpc k = Some df /\
    nth_error dfs_mpc (S k) = Some next /\
    iloc_col df 0 = Ok lf /\ (2 <= length lf)%nat /\
    solver (build_model lf (st_energy st) (st_peak st) config) = Some v /\
    iloc_cell next 0 1 = Ok load /\
    update_peak (st_peak st) (load + bss_p_ch v 1) next = Ok (st_peak st') /\
    nth_error lf 0 = Some fc /\
    st_energy st' = bss_en v 1 /\
    st_operations st'
    = st_operations st
      ++ [(S k, mkRow (net_load v 1) (bss_p_ch v 1) (bss_en v 1) load
                  (load + bss_p_ch v 1) (st_peak st') fc)].
Proof.
  intros Hk H0 H1.
  destruct (state_after_pred _ _ _ k st' Hk H1) as (st0 & df & Hdf & H0' & Hs).
  rewrite H0 in H0'. injection H0' as <-.
  destruct (step_inv _ _ _ _ _ _ _ Hs)
    as (lf & sp & next & load & fc & Hlf & Hopt & Hn & Hload & Hp & Hfc & Hen & Hops).
  destruct (run_opt_inv _ _ _ _ _ _ Hopt) as (v & Hl & Hv & ->).
  cbn [sp_net_load sp_bss_p_ch sp_bss_en] in *.
  exists df, next, lf, v, load, fc.
  repeat (split; [assumption|]).
  rewrite Hops. apply dict_update_fresh.
  rewrite (keys_after solver dfs_mpc config k st ltac:(lia) H0), in_seq. lia.
Qed.

Lemma length_after (k : nat) (st : SimState) :
  (k < length dfs_mpc)%nat -> reach k = Ok st ->
  length (st_operations st) = k.
Proof.
  intros Hk H. rewrite <- (length_map fst). fold (keys (st_operations st)).
  rewrite (keys_after solver dfs_mpc config k st Hk H). apply length_seq.
Qed.

(** A state that is reached was reached through every earlier state. *)
Lemma reach_earlier (n k : nat) (st : SimState) :
  (n < length dfs_mpc)%nat -> (k <= n)%nat -> reach n = Ok st ->
  exists stk, reach k = Ok stk.
Proof.
  intros Hn Hk. revert st. induction n as [|n IH]; intros st H.
  - replace k with 0%nat by lia. eauto.
  - destruct (Nat.eq_dec k (S n)) as [->|Hne]; [eauto|].
    destruct (state_after_pred _ _ _ n st Hn H) as (st0 & _ & _ & H0 & _).
    apply (IH ltac:(lia) ltac:(lia) st0 H0).
Qed.

(** Every row of the trace was appended by the iteration of its position
    and is never touched again. *)
Lemma rows_origin (n : nat) (st : SimState) (k key : nat) (row : Row) :
  (n < length dfs_mpc)%nat -> reach n = Ok st ->
  nth_error (st_operations st) k = Some (key, row) ->
  (k < n)%nat /\ key = S k /\
  exists stk stk',
    reach k = Ok stk /\ reach (S k) = Ok stk' /\
    st_operations stk' = st_operations stk ++ [(S k, row)].
Proof.
  intros Hn. revert st. induction n as [|n IH]; intros st H Hrow.
  - rewrite state_after_O in H. injection H as <-. destruct k; discriminate.
  - destruct (state_after_pred _ _ _ n st Hn H) as (st0 & _ & _ & H0 & _).
    destruct (episode_step n st0 st Hn H0 H)
      as (df & next & lf & v & load & fc & _ & _ & _ & _ & _ & _ & _ & _ & _ & Hops).
    pose proof (length_after n st0 ltac:(lia) H0) as Hlen.
    rewrite Hops in Hrow.
    destruct (Nat.lt_ge_cases k n) as [Hlt|Hge].
    + rewrite nth_error_app1 in Hrow by lia.
      destruct (IH ltac:(lia) st0 H0 Hrow) as (Hk & Hkey & Hex).
      split; [lia|]. split; [exact Hkey | exact Hex].
    + rewrite nth_error_app2 in Hrow by lia. rewrite Hlen in Hrow.
      destruct (k - n)%nat as [|d] eqn:E; [|destruct d; discriminate].
      cbn [nth_error] in Hrow. injection Hrow as <- <-.
      assert (k = n) by lia. subst k.
      split; [lia|]. split; [reflexivity|].
      exists st0, st. repeat split; assumption.
Qed.

(** The facts of [episode_step] for the row at position [k] of a trace. *)
Lemma row_facts (n : nat) (st : SimState) (k key : nat) (row : Row) :
  (n < length dfs_mpc)%nat -> reach n = Ok st ->
  nth_error (st_operations st) k = Some (key, row) ->
  key = S k /\ (S k < length dfs_mpc)%nat /\
  exists stk stk' df next lf v load fc,
    reach k = Ok stk /\ reach (S k) = Ok stk' /\
    nth_error dfs_mpc k = Some df /\
    nth_error dfs_mpc (S k) = Some next /\
    iloc_col df 0 = Ok lf /\ (2 <= length lf)%nat /\
    solver (build_model lf (st_energy stk) (st_peak stk) config) = Some v /\
    iloc_cell next 0 1 = Ok load /\
    update_peak (st_peak stk) (load + bss_p_ch v 1) next = Ok (st_peak stk') /\
    nth_error lf 0 = Some fc /\
    st_energy stk' = bss_en v 1 /\
    row = mkRow (net_load v 1) (bss_p_ch v 1) (bss_en v 1) load
            (load + bss_p_ch v 1) (st_peak stk') fc.
Proof.
  intros Hn H Hrow.
  destruct (rows_origin n st k key row Hn H Hrow)
    as (Hk & Hkey & stk & stk' & Hr & Hr' & Hops).
  split; [exact Hkey|]. split; [lia|].
  destruct (episode_step k stk stk' ltac:(lia) Hr Hr')
    as (df & next & lf & v & load & fc & F1 & F2 & F3 & F4 & F5 & F6 & F7 & F8 & F9 & F10).
  exists stk, stk', df, next, lf, v, load, fc.
  repeat (split; [assumption|]).
  rewrite F10 in Hops. apply app_inv_head in Hops. congruence.
Qed.
End Episode.

(** ** The battery over an episode *)

(** X5.  With a solver whose answers satisfy the constraints, every row of
    a trace, of a whole episode or of its first [n] steps, has its battery
    energy within [[0, bat_size_kwh]] and its charge power within
    [[-bat_max_power, bat_max_power]], and the energy of the row is the
    battery state the next step starts from. *)
Theorem episode_rows_within_limits (solver : Solver)
    (dfs_mpc : list DataFrame) (config : Config) (n : nat) (st : SimState)
    (k key : nat) (row : Row) :
  solver_sound solver ->
  (n < length dfs_mpc)%nat ->
  state_after solver dfs_mpc config n = Ok st ->
  nth_error (st_operations st) k = Some (key, row) ->
  0 <= row_bss_en row /\ row_bss_en row <= bat_size_kwh config /\
  - bat_max_power config <= row_bss_p_ch row /\
  row_bss_p_ch row <= bat_max_power config /\
  exists stk',
    state_after solver dfs_mpc config (S k) = Ok stk' /\
    st_energy stk' = row_bss_en row.
Proof.
  intros Hsound Hn H Hrow.
  destruct (row_facts solver dfs_mpc config n st k key row Hn H Hrow)
    as (_ & _ & stk & stk' & df & next & lf & v & load & fc
        & _ & Hr' & _ & _ & _ & Hl & Hv & _ & _ & _ & Hen & ->).
  cbn [row_bss_en row_bss_p_ch].
  destruct (Hsound _ _ Hv) as ((_ & _ & _ & Hdom) & _ & Hc).
  assert (H1 : (1 < T_len (build_model lf (st_energy stk) (st_peak stk) config))%nat).
  { unfold T_len. cbn [demand build_model]. lia. }
  destruct (Hc 1%nat H1) as (_ & _ & _ & Hcap & Hpos & Hneg).
  unfold bat_lim_energy, bat_lim_power_pos, bat_lim_power_neg in *.
  cbn [bss_size bss_max_pow build_model] in *.
  split; [apply Hdom, H1|]. split; [exact Hcap|].
  split; [exact Hneg|]. split; [exact Hpos|].
  exists stk'. split; [exact Hr' | exact Hen].
Qed.

Lemma episode_rows_within_limits_witness :
  exists st row,
    state_after (schedule_solver (shift 3)) shaving_windows sample_config 1
    = Ok st /\
    nth_error (st_operations st) 0 = Some (1%nat, row) /\
    0 <= row_bss_en row /\ row_bss_en row <= bat_size_kwh sample_config /\
    - bat_max_power sample_config <= row_bss_p_ch row /\
    row_bss_p_ch row <= bat_max_power sample_config /\
    exists stk',
      state_after (schedule_solver (shift 3)) shaving_windows sample_config 1
      = Ok stk' /\
      st_energy stk' = row_bss_en row.
Proof.
  eexists. eexists. split; [vm_compute; reflexivity|].
  split; [reflexivity|].
  eapply (episode_rows_within_limits (schedule_solver (shift 3))
            shaving_windows sample_config 1 _ 0 1).
  - apply schedule_solver_sound.
  - simpl. lia.
  - vm_compute. reflexivity.
  - reflexivity.
Defined.

(** X6.  The model charges the battery's power through the efficiency,
    the realised net load does not.  Whatever the solver answers, the
    realised net load of a row is its realised load plus its charge power.
    With a solver whose answers satisfy the constraints exactly, the planned
    net load of the row is
    [efficiency * charge power + second forecast of its window], so that the
    realised net load exceeds the planned one by the forecast error plus
    [(1 - efficiency) * charge power]. *)
Theorem realized_versus_planned (solver : Solver)
    (dfs_mpc : list DataFrame) (config : Config) (n : nat) (st : SimState)
    (k key : nat) (row : Row) :
  (n < length dfs_mpc)%nat ->
  state_after solver dfs_mpc config n = Ok st ->
  nth_error (st_operations st) k = Some (key, row) ->
  row_opr_net_load row = row_load row + row_bss_p_ch row /\
  exists df lf f1,
    nth_error dfs_mpc k = Some df /\ iloc_col df 0 = Ok lf /\
    nth_error lf 1 = Some f1 /\
    (solver_sound solver ->
     row_net_load row == bat_efficiency config * row_bss_p_ch row + f1 /\
     row_opr_net_load row - row_net_load row
     == (row_load row - f1) + (1 - bat_efficiency config) * row_bss_p_ch row).
Proof.
  intros Hn H Hrow.
  destruct (row_facts solver dfs_mpc config n st k key row Hn H Hrow)
    as (_ & _ & stk & stk' & df & next & lf & v & load & fc
        & _ & _ & Hdf & _ & Hlf & Hl & Hv & _ & _ & _ & _ & ->).
  cbn [row_net_load row_bss_p_ch row_opr_net_load row_load].
  split; [reflexivity|].
  destruct (nth_error lf 1) as [f1|] eqn:E;
    [|apply nth_error_None in E; lia].
  exists df, lf, f1.
  split; [exact Hdf|]. split; [exact Hlf|]. split; [exact E|].
  intro Hsound.
  destruct (Hsound _ _ Hv) as (_ & _ & Hc).
  assert (H1 : (1 < T_len (build_model lf (st_energy stk) (st_peak stk) config))%nat).
  { unfold T_len. cbn [demand build_model]. lia. }
  destruct (Hc 1%nat H1) as (Hbal & _).
  unfold energy_balance, demand_at in Hbal. cbn [bss_eff demand build_model] in Hbal.
  rewrite (nth_error_nth _ _ _ E) in Hbal.
  split; [exact Hbal|]. rewrite Hbal. ring.
Qed.

Lemma realized_versus_planned_witness :
  exists st row,
    state_after (schedule_solver (shift 3)) shaving_windows sample_config 1
    = Ok st /\
    nth_error (st_operations st) 0 = Some (1%nat, row) /\
    row_opr_net_load row = row_load row + row_bss_p_ch row /\
    exists df lf f1,
      nth_error shaving_windows 0 = Some df /\ iloc_col df 0 = Ok lf /\
      nth_error lf 1 = Some f1 /\
      row_net_load row
      == bat_efficiency sample_config * row_bss_p_ch row + f1 /\
      row_opr_net_load row - row_net_load row
      == (row_load row - f1)
         + (1 - bat_efficiency sample_config) * row_bss_p_ch row.
Proof.
  eexists. eexists. split; [vm_compute; reflexivity|].
  split; [reflexivity|].
  destruct (realized_versus_planned (schedule_solver (shift 3))
              shaving_windows sample_config 1
              (mkState 8 (10 # 2)
                 [(1%nat, mkRow (785 # 100) 3 (10 # 2) 5 (5 + 3) 8 10)])
              0 1 (mkRow (785 # 100) 3 (10 # 2) 5 (5 + 3) 8 10))
    as (Hsum & df & lf & f1 & Hdf & Hlf & Hf1 & Hs).
  - simpl. lia.
  - vm_compute. reflexivity.
  - reflexivity.
  - split; [exact Hsum|]. exists df, lf, f1.
    split; [exact Hdf|]. split; [exact Hlf|]. split; [exact Hf1|].
    apply Hs, schedule_solver_sound.
Defined.

(** ** The running peak over an episode *)

Lemma max_from_app (l1 l2 : list Q) :
  forall acc, max_from acc (l1 ++ l2) = max_from (max_from acc l1) l2.
Proof.
  induction l1 as [|x r IH]; intro acc; [reflexivity|].
  cbn [app max_from]. apply IH.
Qed.

Lemma py_min_le (a b : Q) : py_min a b <= a /\ py_min a b <= b.
Proof.
  unfold py_min. destruct (Qltb b a) eqn:E.
  - apply Qltb_lt in E. split; [apply Qlt_le_weak, E | apply Qle_refl].
  - apply Qltb_ge in E. split; [apply Qle_refl | exact E].
Qed.

Lemma column_snoc (f : Row -> Q) (d : Operations) (k : nat) (r : Row) :
  column f (d ++ [(k, r)]) = column f d ++ [f r].
Proof. unfold column. rewrite map_app. reflexivity. Qed.

Lemma ceiling_values_S (dfs_mpc : list DataFrame) (n : nat)
    (next : DataFrame) (col : list Q) :
  nth_error dfs_mpc (S n) = Some next -> iloc_col next 0 = Ok col ->
  ceiling_values dfs_mpc (S n) = ceiling_values dfs_mpc n ++ col.
Proof.
  intros Hn Hc. unfold ceiling_values.
  destruct dfs_mpc as [|w0 r]; [discriminate|]. cbn [tl nth_error] in *.
  rewrite (firstn_snoc r n next Hn), flat_map_app. cbn [flat_map].
  rewrite app_nil_r. f_equal.
  apply of_option_Ok in Hc. apply nth_error_nth. exact Hc.
Qed.

(** X7.  At every state of an episode the running peak is at most the
    larger of [peak_init] and the largest realised net load recorded so far,
    and at most the larger of [peak_init] and the largest first-column value
    of the windows realised so far. *)
Theorem running_peak_ceiling (solver : Solver) (dfs_mpc : list DataFrame)
    (config : Config) (n : nat) (st : SimState) :
  (n < length dfs_mpc)%nat ->
  state_after solver dfs_mpc config n = Ok st ->
  st_peak st
  <= max_from (peak_init config) (column row_opr_net_load (st_operations st)) /\
  st_peak st <= max_from (peak_init config) (ceiling_values dfs_mpc n).
Proof.
  revert st. induction n as [|n IH]; intros st Hn H.
  - rewrite state_after_O in H. injection H as <-. split; apply Qle_refl.
  - destruct (state_after_pred _ _ _ n st Hn H) as (st0 & _ & _ & H0 & _).
    destruct (IH st0 ltac:(lia) H0) as (IH1 & IH2).
    destruct (episode_step solver dfs_mpc config n st0 st Hn H0 H)
      as (df & next & lf & v & load & fc & _ & Hnext & _ & _ & _ & _ & Hp & _ & _ & Hops).
    rewrite Hops, column_snoc, max_from_app. cbn [row_opr_net_load].
    destruct (update_peak_cases _ _ _ _ Hp)
      as [(_ & ->) | (_ & col & mx & Hc & Hm & ->)].
    + split.
      * eapply Qle_trans; [exact IH1 | apply max_from_ge_acc].
      * destruct (nth_error dfs_mpc (S n)) as [w|] eqn:E; [|discriminate].
        injection Hnext as ->.
        destruct (iloc_col next 0) as [col|e] eqn:Hc.
        -- rewrite (ceiling_values_S dfs_mpc n next col E Hc), max_from_app.
           eapply Qle_trans; [exact IH2 | apply max_from_ge_acc].
        -- unfold ceiling_values.
           destruct dfs_mpc as [|w0 r]; [discriminate|]. cbn [tl nth_error] in *.
           rewrite (firstn_snoc r n next E), flat_map_app, max_from_app.
           eapply Qle_trans; [exact IH2 | apply max_from_ge_acc].
    + destruct (py_min_le (load + bss_p_ch v 1) mx) as (Hnl & Hmx).
      split.
      * eapply Qle_trans; [exact Hnl|].
        apply max_from_ge_elt. left. reflexivity.
      * rewrite (ceiling_values_S dfs_mpc n next col Hnext Hc), max_from_app.
        eapply Qle_trans; [exact Hmx|]. apply max_from_ge_elt.
        destruct col as [|x r]; [discriminate|]. injection Hm as <-.
        destruct (max_from_in r x) as [-> | Hin];
          [left; reflexivity | right; exact Hin].
Qed.

Lemma running_peak_ceiling_witness :
  exists st,
    state_after (schedule_solver idle) example_windows sample_config 2 = Ok st /\
    st_peak st
    <= max_from (peak_init sample_config)
         (column row_opr_net_load (st_operations st)) /\
    st_peak st
    <= max_from (peak_init sample_config) (ceiling_values example_windows 2).
Proof.
  eexists. split; [vm_compute; reflexivity|].
  apply (running_peak_ceiling (schedule_solver idle) example_windows
           sample_config 2).
  - simpl. lia.
  - vm_compute. reflexivity.
Defined.

(** ** Failing steps *)

(** X8.  An exception raised in any iteration ends the whole run with this
    exception: no trace is returned, not even of the steps before it. *)
Theorem failure_ends_run (solver : Solver) (dfs_mpc : list DataFrame)
    (config : Config) (k : nat) (e : exn) :
  state_after solver dfs_mpc config k = Raise e ->
  run_operations solver dfs_mpc config = Raise e.
Proof.
  intro H. unfold run_operations, run_operations_state.
  rewrite <- (firstn_skipn k (enumerate (removelast dfs_mpc))), loop_app.
  unfold state_after in H. rewrite H. reflexivity.
Qed.

Lemma failure_ends_run_witness :
  state_after (schedule_solver idle) broken_windows sample_config 2
  = Raise IndexError /\
  (exists st,
     state_after (schedule_solver idle) broken_windows sample_config 1 = Ok st /\
     length (st_operations st) = 1%nat) /\
  run_operations (schedule_solver idle) broken_windows sample_config
  = Raise IndexError.
Proof.
  split; [vm_compute; reflexivity|].
  split; [eexists; split; [vm_compute; reflexivity | reflexivity]|].
  apply (failure_ends_run (schedule_solver idle) broken_windows sample_config 2).
  vm_compute. reflexivity.
Defined.

(** ** Whole runs, row by row *)

Lemma run_reaches (solver : Solver) (dfs_mpc : list DataFrame)
    (config : Config) (ops : Operations) :
  run_operations solver dfs_mpc config = Ok ops ->
  exists st,
    state_after solver dfs_mpc config (length dfs_mpc - 1) = Ok st /\
    ops = st_operations st.
Proof.
  intro H. unfold run_operations in H. inv_bind H. injection H as <-.
  rewrite state_after_end in Hx. eauto.
Qed.

Lemma run_length (solver : Solver) (dfs_mpc : list DataFrame)
    (config : Config) (ops : Operations) :
  run_operations solver dfs_mpc config = Ok ops ->
  length ops = (length dfs_mpc - 1)%nat.
Proof.
  intro H. destruct dfs_mpc as [|w0 r] eqn:E.
  - vm_compute in H. injection H as <-. reflexivity.
  - rewrite <- E in *. destruct (run_reaches _ _ _ _ H) as (st & Hst & ->).
    apply (length_after solver dfs_mpc config (length dfs_mpc - 1) st);
      [|exact Hst].
    rewrite E. simpl. lia.
Qed.

Lemma run_row_facts (solver : Solver) (dfs_mpc : list DataFrame)
    (config : Config) (ops : Operations) (k key : nat) (row : Row) :
  run_operations solver dfs_mpc config = Ok ops ->
  nth_error ops k = Some (key, row) ->
  key = S k /\ (S k < length dfs_mpc)%nat /\
  exists stk stk' df next lf v load fc,
    state_after solver dfs_mpc config k = Ok stk /\
    state_after solver dfs_mpc config (S k) = Ok stk' /\
    nth_error dfs_mpc k = Some df /\
    nth_error dfs_mpc (S k) = Some next /\
    iloc_col df 0 = Ok lf /\ (2 <= length lf)%nat /\
    solver (build_model lf (st_energy stk) (st_peak stk) config) = Some v /\
    iloc_cell next 0 1 = Ok load /\
    update_peak (st_peak stk) (load + bss_p_ch v 1) next = Ok (st_peak stk') /\
    nth_error lf 0 = Some fc /\
    st_energy stk' = bss_en v 1 /\
    row = mkRow (net_load v 1) (bss_p_ch v 1) (bss_en v 1) load
            (load + bss_p_ch v 1) (st_peak stk') fc.
Proof.
  intros H Hrow. destruct dfs_mpc as [|w0 r] eqn:E.
  - vm_compute in H. injection H as <-. destruct k; discriminate.
  - rewrite <- E in *. destruct (run_reaches _ _ _ _ H) as (st & Hst & ->).
    apply (row_facts solver dfs_mpc config (length dfs_mpc - 1) st k key row);
      [|exact Hst|exact Hrow].
    rewrite E. simpl. lia.
Qed.

(** ** A battery that cannot move *)

Lemma still_solution (m : Model) (v : Vars) :
  feasible m v -> bss_max_pow m == 0 -> (2 <= T_len m)%nat ->
  bss_p_ch v 1 == 0 /\ bss_en v 1 == bss_energy_start m /\
  net_load v 1 == demand_at m 1.
Proof.
  intros Hf Hz Hl.
  destruct (feasible_two_steps m v Hf Hl) as (Hen & _).
  destruct Hf as (_ & _ & Hc).
  destruct (Hc 0%nat ltac:(lia)) as (_ & _ & _ & _ & Hp0 & Hn0).
  destruct (Hc 1%nat ltac:(lia)) as (Hb & _ & _ & _ & Hp1 & Hn1).
  unfold bat_lim_power_pos, bat_lim_power_neg, energy_balance in *.
  assert (E0 : bss_p_ch v 0 == 0) by lra.
  assert (E1 : bss_p_ch v 1 == 0) by lra.
  split; [exact E1|]. split; [lra|]. rewrite Hb, E1. ring.
Qed.

Lemma still_energy (solver : Solver) (dfs_mpc : list DataFrame)
    (config : Config) (n : nat) (st : SimState) :
  solver_sound solver -> bat_max_power config == 0 ->
  (n < length dfs_mpc)%nat ->
  state_after solver dfs_mpc config n = Ok st ->
  st_energy st == bat_size_kwh config * bat_initial_soc config.
Proof.
  intros Hsound Hz. revert st. induction n as [|n IH]; intros st Hn H.
  - rewrite state_after_O in H. injection H as <-. reflexivity.
  - destruct (state_after_pred _ _ _ n st Hn H) as (st0 & _ & _ & H0 & _).
    destruct (episode_step solver dfs_mpc config n st0 st Hn H0 H)
      as (df & next & lf & v & load & fc & _ & _ & _ & Hl & Hv & _ & _ & _ & Hen & _).
    rewrite Hen.
    destruct (still_solution _ v (Hsound _ _ Hv) Hz Hl) as (_ & E & _).
    rewrite E. cbn [bss_energy_start build_model]. apply IH; [lia | exact H0].
Qed.

Lemma still_solution_row (solver : Solver) (dfs_mpc : list DataFrame)
    (config : Config) (ops : Operations) (k key : nat) (row : Row) :
  solver_sound solver -> bat_max_power config == 0 ->
  run_operations solver dfs_mpc config = Ok ops ->
  nth_error ops k = Some (key, row) ->
  row_opr_net_load row == row_load row.
Proof.
  intros Hsound Hz H Hrow.
  destruct (run_row_facts solver dfs_mpc config ops k key row H Hrow)
    as (_ & _ & stk & stk' & df & next & lf & v & load & fc
        & _ & _ & _ & _ & _ & Hl & Hv & _ & _ & _ & _ & ->).
  cbn [row_opr_net_load row_load].
  destruct (still_solution _ v (Hsound _ _ Hv) Hz Hl) as (E1 & _).
  rewrite E1. ring.
Qed.

(** X9.  With [bat_max_power = 0] and a solver whose answers satisfy the
    constraints, every row of a returned trace has a charge power of zero, a
    battery energy equal to the initial one, a planned net load equal to the
    second forecast of its window, and a realised net load equal to the
    realised load. *)
Theorem still_battery (solver : Solver) (dfs_mpc : list DataFrame)
    (config : Config) (ops : Operations) (k key : nat) (row : Row) :
  solver_sound solver -> bat_max_power config == 0 ->
  run_operations solver dfs_mpc config = Ok ops ->
  nth_error ops k = Some (key, row) ->
  row_bss_p_ch row == 0 /\
  row_bss_en row == bat_size_kwh config * bat_initial_soc config /\
  row_opr_net_load row == row_load row /\
  exists df lf,
    nth_error dfs_mpc k = Some df /\ iloc_col df 0 = Ok lf /\
    row_net_load row == nth 1 lf 0.
Proof.
  intros Hsound Hz H Hrow.
  destruct (run_row_facts solver dfs_mpc config ops k key row H Hrow)
    as (_ & Hk & stk & stk' & df & next & lf & v & load & fc
        & Hr & _ & Hdf & _ & Hlf & Hl & Hv & _ & _ & _ & _ & ->).
  cbn [row_bss_p_ch row_bss_en row_opr_net_load row_load row_net_load].
  destruct (still_solution _ v (Hsound _ _ Hv) Hz Hl) as (E1 & E2 & E3).
  split; [exact E1|]. split.
  { rewrite E2. cbn [bss_energy_start build_model].
    apply (still_energy solver dfs_mpc config k stk Hsound Hz ltac:(lia) Hr). }
  split; [rewrite E1; ring|].
  exists df, lf. split; [exact Hdf|]. split; [exact Hlf | exact E3].
Qed.

Lemma still_battery_witness :
  exists ops row,
    run_operations (schedule_solver idle) example_windows still_config
    = Ok ops /\
    nth_error ops 1 = Some (2%nat, row) /\
    row_bss_p_ch row == 0 /\
    row_bss_en row
    == bat_size_kwh still_config * bat_initial_soc still_config /\
    row_opr_net_load row == row_load row /\
    exists df lf,
      nth_error example_windows 1 = Some df /\ iloc_col df 0 = Ok lf /\
      row_net_load row == nth 1 lf 0.
Proof.
  eexists. eexists. split; [vm_compute; reflexivity|].
  split; [reflexivity|].
  eapply (still_battery (schedule_solver idle) example_windows still_config
            _ 1 2).
  - apply schedule_solver_sound.
  - reflexivity.
  - vm_compute. reflexivity.
  - reflexivity.
Defined.

(** ** The two runs of [run_nle] *)

Lemma mapM_length {A B : Type} (f : A -> result B) (l : list A) :
  forall l', mapM f l = Ok l' -> length l' = length l.
Proof.
  induction l as [|a r IH]; intros l' H; cbn [mapM] in H.
  - injection H as <-. reflexivity.
  - inv_bind H. inv_bind H. injection H as <-. cbn [length].
    f_equal. apply IH, Hx0.
Qed.

Lemma mapM_nth {A B : Type} (f : A -> result B) (l : list A) :
  forall l' j x,
    mapM f l = Ok l' -> nth_error l j = Some x ->
    exists y, nth_error l' j = Some y /\ f x = Ok y.
Proof.
  induction l as [|a r IH]; intros l' j x H Hj; [destruct j; discriminate|].
  cbn [mapM] in H. inv_bind H. inv_bind H. injection H as <-.
  destruct j as [|j]; cbn [nth_error] in *.
  - injection Hj as <-. eauto.
  - apply (IH x1 j x Hx0 Hj).
Qed.

Lemma windows_pair (gt ts_forecast : TimeSeries) (w : DataFrame) :
  window_model gt ts_forecast = Ok w ->
  exists f g,
    w = [f; g] /\
    window_gt gt ts_forecast = Ok [g; g] /\
    mapM (scale (gt_min gt) (gt_max gt)) (values ts_forecast) = Ok f /\
    length f = length ts_forecast /\ length g = length ts_forecast /\
    iloc_cell w 0 1 = iloc_cell [g; g] 0 1.
Proof.
  intro H. unfold window_model in H. inv_bind H.
  unfold window_gt. rewrite Hx. cbn [bind].
  unfold scale_frame in *. cbn [mapM bind] in *.
  inv_bind H. inv_bind H. injection H as <-.
  inv_bind Hx1. injection Hx1 as <-.
  rewrite Hx0, Hx2. cbn [bind tl].
  exists x0, x2. split; [reflexivity|]. split; [reflexivity|].
  split; [reflexivity|].
  pose proof (mapM_length _ _ _ Hx0) as L0.
  pose proof (mapM_length _ _ _ Hx2) as L1.
  pose proof (mapM_length _ _ _ Hx) as L2.
  unfold values in L0. rewrite length_map in L0.
  split; [exact L0|]. split; [congruence | reflexivity].
Qed.

(** The join of the embedding is the join of the program where no cell is
    missing. *)
Lemma join_left_nan_spec (ts_forecast gt : TimeSeries) (g : list Q) :
  join_left ts_forecast gt = Ok g <->
  join_left_nan ts_forecast gt = map Some g.
Proof.
  unfold join_left, join_left_nan. revert g.
  induction ts_forecast as [|[i x] r IH]; intro g; cbn [mapM map fst].
  - split; intro H.
    + injection H as <-. reflexivity.
    + destruct g; [reflexivity | discriminate].
  - destruct (lookup gt i) as [y|]; cbn [of_option bind].
    + split; intro H.
      * inv_bind H. injection H as <-. cbn [map]. f_equal. apply IH, Hx.
      * destruct g as [|y' g']; [discriminate|]. cbn [map] in H.
        injection H as <- H. apply IH in H. rewrite H. reflexivity.
    + split; intro H; [discriminate|].
      destruct g; discriminate.
Qed.

(** The rows of a window of the model run: the scaled forecast and the
    scaled ground truth of the same time step. *)
Lemma window_rows (gt ts_forecast : TimeSeries) (f g : list Q) :
  window_model gt ts_forecast = Ok [f; g] ->
  (exists truth,
     join_left ts_forecast gt = Ok truth /\
     mapM (scale (gt_min gt) (gt_max gt)) truth = Ok g) /\
  forall k i x,
    nth_error ts_forecast k = Some (i, x) ->
    exists y sx sy,
      lookup gt i = Some y /\
      scale (gt_min gt) (gt_max gt) x = Ok sx /\
      scale (gt_min gt) (gt_max gt) y = Ok sy /\
      nth_error f k = Some sx /\ nth_error g k = Some sy.
Proof.
  intro H. unfold window_model in H. inv_bind H.
  unfold scale_frame in H. cbn [mapM bind] in H.
  inv_bind H. inv_bind H. inv_bind Hx1.
  injection Hx1 as <-. injection H as <- <-.
  split; [exists x; split; assumption|].
  intros k i v Hk.
  destruct (mapM_nth _ _ _ k (i, v) Hx Hk) as (y & Hy & Hlook).
  cbn [fst] in Hlook. apply of_option_Ok in Hlook.
  destruct (mapM_nth _ _ _ k y Hx2 Hy) as (sy & Hsy & Hscy).
  assert (Hv : nth_error (values ts_forecast) k = Some v).
  { unfold values. rewrite nth_error_map, Hk. reflexivity. }
  destruct (mapM_nth _ _ _ k v Hx0 Hv) as (sx & Hsx & Hscx).
  exists y, sx, sy. repeat split; assumption.
Qed.

(** X10.  A window of the model run that is built without a missing or
    non-finite cell has exactly two columns, one row per time step of the
    forecast: at the row of a time step, the first column holds the scaled
    forecast and the second the scaled value of the ground truth at this
    time step.  The window that the baseline run gets from the same forecast
    has the second of these columns twice.  The baseline is solved on the
    truth, and both runs realise on the same truth. *)
Theorem windows_of_both_runs (gt ts_forecast : TimeSeries) (w : DataFrame) :
  window_model gt ts_forecast = Ok w ->
  exists f g,
    w = [f; g] /\
    window_gt gt ts_forecast = Ok [g; g] /\
    mapM (scale (gt_min gt) (gt_max gt)) (values ts_forecast) = Ok f /\
    length f = length ts_forecast /\ length g = length ts_forecast /\
    iloc_cell w 0 1 = iloc_cell [g; g] 0 1 /\
    (exists truth,
       join_left ts_forecast gt = Ok truth /\
       join_left_nan ts_forecast gt = map Some truth /\
       mapM (scale (gt_min gt) (gt_max gt)) truth = Ok g) /\
    (forall k i x,
       nth_error ts_forecast k = Some (i, x) ->
       exists y sx sy,
         lookup gt i = Some y /\
         scale (gt_min gt) (gt_max gt) x = Ok sx /\
         scale (gt_min gt) (gt_max gt) y = Ok sy /\
         nth_error f k = Some sx /\ nth_error g k = Some sy).
Proof.
  intro H.
  destruct (windows_pair gt ts_forecast w H)
    as (f & g & -> & Hgt & Hf & Lf & Lg & Hc).
  destruct (window_rows gt ts_forecast f g H) as ((truth & Hj & Hg) & Hrows).
  exists f, g.
  split; [reflexivity|]. split; [exact Hgt|]. split; [exact Hf|].
  split; [exact Lf|]. split; [exact Lg|]. split; [exact Hc|].
  split; [|exact Hrows].
  exists truth. split; [exact Hj|]. split; [|exact Hg].
  apply join_left_nan_spec, Hj.
Qed.

Lemma windows_of_both_runs_witness :
  exists w f g,
    window_model sample_truth [(0%Z, 2); (1%Z, 1)] = Ok w /\
    w = [f; g] /\
    window_gt sample_truth [(0%Z, 2); (1%Z, 1)] = Ok [g; g] /\
    mapM (scale (gt_min sample_truth) (gt_max sample_truth))
      (values [(0%Z, 2); (1%Z, 1)]) = Ok f /\
    length f = 2%nat /\ length g = 2%nat /\
    iloc_cell w 0 1 = iloc_cell [g; g] 0 1 /\
    (exists truth,
       join_left [(0%Z, 2); (1%Z, 1)] sample_truth = Ok truth /\
       join_left_nan [(0%Z, 2); (1%Z, 1)] sample_truth = map Some truth /\
       mapM (scale (gt_min sample_truth) (gt_max sample_truth)) truth = Ok g) /\
    (forall k i x,
       nth_error [(0%Z, 2); (1%Z, 1)] k = Some (i, x) ->
       exists y sx sy,
         lookup sample_truth i = Some y /\
         scale (gt_min sample_truth) (gt_max sample_truth) x = Ok sx /\
         scale (gt_min sample_truth) (gt_max sample_truth) y = Ok sy /\
         nth_error f k = Some sx /\ nth_error g k = Some sy).
Proof.
  assert (Hw : exists w, window_model sample_truth [(0%Z, 2); (1%Z, 1)] = Ok w).
  { eexists. vm_compute. reflexivity. }
  destruct Hw as (w & Hw).
  destruct (windows_of_both_runs sample_truth [(0%Z, 2); (1%Z, 1)] w Hw)
    as (f & g & H).
  exists w, f, g. split; [exact Hw | exact H].
Defined.

Lemma run_operations_short (solver : Solver) (dfs_mpc : list DataFrame)
    (config : Config) :
  (length dfs_mpc < 2)%nat -> run_operations solver dfs_mpc config = Ok [].
Proof.
  intro H. destruct dfs_mpc as [|w0 [|w1 r]]; simpl in H; try lia; reflexivity.
Qed.

Lemma run_keys (solver : Solver) (dfs_mpc : list DataFrame)
    (config : Config) (ops : Operations) :
  run_operations solver dfs_mpc config = Ok ops ->
  keys ops = seq 1 (length dfs_mpc - 1).
Proof.
  intro H. destruct dfs_mpc as [|w0 r] eqn:E.
  - vm_compute in H. injection H as <-. reflexivity.
  - rewrite <- E in *. destruct (run_reaches _ _ _ _ H) as (st & Hst & ->).
    apply (keys_after solver dfs_mpc config (length dfs_mpc - 1) st);
      [|exact Hst].
    rewrite E. simpl. lia.
Qed.

(** The realised load of the row at position [k] in either run of
    [run_nle] is the scaled truth at the first time step of forecast
    [k+1]. *)
Lemma realized_cell (gt : TimeSeries) (ts_list : list TimeSeries)
    (dfs_gt dfs : list DataFrame) (j : nat) (w w' : DataFrame) :
  mapM (window_gt gt) ts_list = Ok dfs_gt ->
  mapM (window_model gt) ts_list = Ok dfs ->
  nth_error dfs j = Some w -> nth_error dfs_gt j = Some w' ->
  iloc_cell w 0 1 = iloc_cell w' 0 1.
Proof.
  intros Hg Hm Hw Hw'.
  assert (Hj : (j < length ts_list)%nat).
  { rewrite <- (mapM_length _ _ _ Hm). apply nth_error_Some. congruence. }
  destruct (nth_error ts_list j) as [ts|] eqn:E;
    [|apply nth_error_None in E; lia].
  destruct (mapM_nth _ _ _ j ts Hm E) as (y & Hy & Hwm).
  destruct (mapM_nth _ _ _ j ts Hg E) as (y' & Hy' & Hwg).
  assert (y = w) by congruence. assert (y' = w') by congruence. subst y y'.
  destruct (windows_pair gt ts w Hwm) as (f & g & -> & Hgg & _ & _ & _ & Hc).
  rewrite Hgg in Hwg. injection Hwg as <-. exact Hc.
Qed.

Lemma runs_same_loads (solver solver' : Solver)
    (config config' : Config) (gt : TimeSeries) (ts_list : list TimeSeries)
    (dfs_gt dfs : list DataFrame) (ops_gt ops : Operations) :
  mapM (window_gt gt) ts_list = Ok dfs_gt ->
  mapM (window_model gt) ts_list = Ok dfs ->
  run_operations solver dfs_gt config = Ok ops_gt ->
  run_operations solver' dfs config' = Ok ops ->
  column row_load ops = column row_load ops_gt.
Proof.
  intros Hg Hm Hrg Hrm.
  pose proof (mapM_length _ _ _ Hg) as Lg.
  pose proof (mapM_length _ _ _ Hm) as Lm.
  pose proof (run_length _ _ _ _ Hrg) as Ng.
  pose proof (run_length _ _ _ _ Hrm) as Nm.
  apply nth_error_ext. intro k. unfold column. rewrite !nth_error_map.
  destruct (nth_error ops k) as [[key row]|] eqn:E;
    destruct (nth_error ops_gt k) as [[key' row']|] eqn:E'; cbn [option_map snd].
  - f_equal.
    destruct (run_row_facts _ _ _ _ _ _ _ Hrm E)
      as (_ & _ & s1 & s2 & df & next & lf & v & load & fc
          & _ & _ & _ & Hn & _ & _ & _ & Hc & _ & _ & _ & ->).
    destruct (run_row_facts _ _ _ _ _ _ _ Hrg E')
      as (_ & _ & s1' & s2' & df' & next' & lf' & v' & load' & fc'
          & _ & _ & _ & Hn' & _ & _ & _ & Hc' & _ & _ & _ & ->).
    cbn [row_load].
    pose proof (realized_cell gt ts_list dfs_gt dfs (S k) next next'
                  Hg Hm Hn Hn') as Hcell.
    congruence.
  - exfalso. apply nth_error_None in E'.
    assert (k < length ops)%nat by (apply nth_error_Some; congruence). lia.
  - exfalso. apply nth_error_None in E.
    assert (k < length ops_gt)%nat by (apply nth_error_Some; congruence). lia.
  - reflexivity.
Qed.

(** X11.  Whenever both runs of [run_nle] return a trace, whatever the
    solver and the configuration of each, the two traces have the same keys
    and the same column of realised loads: the runs differ in what they
    decide, not in what they are realised against. *)
Theorem both_runs_same_truth (solver solver' : Solver)
    (config config' : Config) (gt : TimeSeries) (ts_list : list TimeSeries)
    (dfs_gt dfs : list DataFrame) (ops_gt ops : Operations) :
  mapM (window_gt gt) ts_list = Ok dfs_gt ->
  mapM (window_model gt) ts_list = Ok dfs ->
  run_operations solver dfs_gt config = Ok ops_gt ->
  run_operations solver' dfs config' = Ok ops ->
  keys ops = keys ops_gt /\
  column row_load ops = column row_load ops_gt.
Proof.
  intros Hg Hm Hrg Hrm.
  pose proof (mapM_length _ _ _ Hg) as Lg.
  pose proof (mapM_length _ _ _ Hm) as Lm.
  split.
  - rewrite (run_keys _ _ _ _ Hrg), (run_keys _ _ _ _ Hrm). congruence.
  - apply (runs_same_loads solver solver' config config' gt ts_list dfs_gt dfs);
      assumption.
Qed.

Lemma both_runs_same_truth_witness :
  exists dfs_gt dfs ops_gt ops,
    mapM (window_gt sample_truth) poor_forecasts = Ok dfs_gt /\
    mapM (window_model sample_truth) poor_forecasts = Ok dfs /\
    run_operations (schedule_solver idle) dfs_gt sample_config = Ok ops_gt /\
    run_operations (schedule_solver (shift (1 # 10))) dfs sample_config
    = Ok ops /\
    keys ops = keys ops_gt /\
    column row_load ops = column row_load ops_gt.
Proof.
  eexists. eexists. eexists. eexists.
  split; [vm_compute; reflexivity|].
  split; [vm_compute; reflexivity|].
  split; [vm_compute; reflexivity|].
  split; [vm_compute; reflexivity|].
  eapply (both_runs_same_truth (schedule_solver idle)
            (schedule_solver (shift (1 # 10))) sample_config sample_config
            sample_truth poor_forecasts).
  - vm_compute. reflexivity.
  - vm_compute. reflexivity.
  - vm_compute. reflexivity.
  - vm_compute. reflexivity.
Defined.

Lemma Qltb_proper (a a' b b' : Q) :
  a == a' -> b == b' -> Qltb a b = Qltb a' b'.
Proof.
  intros Ha Hb. unfold Qltb. f_equal.
  destruct (Qle_bool b a) eqn:E; destruct (Qle_bool b' a') eqn:E';
    try reflexivity.
  - apply Qle_bool_iff in E. rewrite Ha, Hb in E. apply Qle_bool_iff in E.
    congruence.
  - apply Qle_bool_iff in E'. rewrite <- Ha, <- Hb in E'.
    apply Qle_bool_iff in E'. congruence.
Qed.

Lemma max_from_Qeq (l l' : list Q) :
  Forall2 Qeq l l' ->
  forall a a', a == a' -> max_from a l == max_from a' l'.
Proof.
  induction 1 as [|x x' r r' Hx _ IH]; intros a a' Ha; [exact Ha|].
  cbn [max_from]. rewrite (Qltb_proper a a' x x' Ha Hx).
  destruct (Qltb a' x'); apply IH; assumption.
Qed.

Lemma Forall2_column (f g : Row -> Q) (d : Operations) :
  (forall k key row, nth_error d k = Some (key, row) -> f row == g row) ->
  Forall2 Qeq (column f d) (column g d).
Proof.
  induction d as [|[key row] r IH]; intro H; [constructor|].
  unfold column. cbn [map snd]. constructor.
  - apply (H 0%nat key row). reflexivity.
  - apply IH. intros k key' row' Hk. apply (H (S k) key' row'). exact Hk.
Qed.

Lemma cost_of_column (ops : Operations) (config : Config) (c : CostResults) :
  calculate_operational_costs ops config = Ok c ->
  exists x r,
    column row_opr_net_load ops = x :: r /\
    total_cost c = max_from x r * peak_cost config.
Proof.
  intro H. unfold calculate_operational_costs in H.
  destruct ops as [|[k0 r0] rest]; [discriminate|].
  cbn in H. injection H as <-.
  exists (row_opr_net_load r0), (column row_opr_net_load rest).
  split; reflexivity.
Qed.

(** X12.  With [bat_max_power = 0] and a solver whose answers satisfy the
    constraints, the score that [run_nle] returns is 0 whatever the
    forecasts are: a battery that cannot move makes the forecast
    irrelevant. *)
Theorem nle_zero_without_battery (solver : Solver) (nle_config : Config)
    (ts_list : list TimeSeries) (gt : TimeSeries) (nle : Q) :
  solver_sound solver -> bat_max_power nle_config == 0 ->
  run_nle solver nle_config ts_list gt = Ok nle ->
  nle == 0.
Proof.
  intros Hsound Hz H. unfold run_nle in H.
  inv_bind H. inv_bind H. inv_bind H. inv_bind H. inv_bind H. inv_bind H.
  injection H as <-.
  rename x into dfs_gt, x0 into ops_gt, x1 into c_gt,
         x2 into dfs, x3 into ops, x4 into c.
  destruct (cost_of_column _ _ _ Hx1) as (a & r & Hcol & ->).
  destruct (cost_of_column _ _ _ Hx4) as (a' & r' & Hcol' & ->).
  assert (Hload : column row_load ops = column row_load ops_gt).
  { apply (runs_same_loads solver solver nle_config nle_config gt ts_list
             dfs_gt dfs); assumption. }
  assert (Hm : Forall2 Qeq (column row_opr_net_load ops) (column row_load ops)).
  { apply Forall2_column. intros k key row Hk.
    apply (still_solution_row solver dfs nle_config ops k key row
             Hsound Hz Hx3 Hk). }
  assert (Hg : Forall2 Qeq (column row_load ops_gt)
                 (column row_opr_net_load ops_gt)).
  { apply Forall2_column. intros k key row Hk. symmetry.
    apply (still_solution_row solver dfs_gt nle_config ops_gt k key row
             Hsound Hz Hx0 Hk). }
  rewrite Hload in Hm. rewrite Hcol' in Hm. rewrite Hcol in Hg.
  destruct (column row_load ops_gt) as [|b rb]; [inversion Hm|].
  inversion Hm as [|? ? ? ? M1 M2]; subst.
  inversion Hg as [|? ? ? ? G1 G2]; subst.
  assert (E1 : max_from a' r' == max_from b rb) by (apply max_from_Qeq; assumption).
  assert (E2 : max_from b rb == max_from a r) by (apply max_from_Qeq; assumption).
  rewrite E1, E2. ring.
Qed.

Lemma nle_zero_without_battery_witness :
  exists nle,
    run_nle (schedule_solver idle) still_config poor_forecasts sample_truth
    = Ok nle /\ nle == 0.
Proof.
  eexists. split; [vm_compute; reflexivity|].
  eapply (nle_zero_without_battery (schedule_solver idle) still_config
            poor_forecasts sample_truth).
  - apply schedule_solver_sound.
  - reflexivity.
  - vm_compute. reflexivity.
Defined.

(** X13.  From fewer than two forecasts [run_nle] returns no score: the
    baseline run realises no step, and reading the realised net loads of its
    empty trace is a [KeyError] whenever the baseline windows can be built at
    all. *)
Theorem nle_needs_two_forecasts (solver : Solver) (nle_config : Config)
    (ts_list : list TimeSeries) (gt : TimeSeries) :
  (length ts_list < 2)%nat ->
  (forall nle, run_nle solver nle_config ts_list gt <> Ok nle) /\
  (forall dfs_gt,
     mapM (window_gt gt) ts_list = Ok dfs_gt ->
     run_operations solver dfs_gt nle_config = Ok [] /\
     run_nle solver nle_config ts_list gt = Raise KeyError).
Proof.
  intro Hl.
  assert (Hk : forall dfs_gt,
    mapM (window_gt gt) ts_list = Ok dfs_gt ->
    run_operations solver dfs_gt nle_config = Ok [] /\
    run_nle solver nle_config ts_list gt = Raise KeyError).
  { intros dfs_gt Hg.
    assert (Hr : run_operations solver dfs_gt nle_config = Ok []).
    { apply run_operations_short. rewrite (mapM_length _ _ _ Hg). exact Hl. }
    split; [exact Hr|]. unfold run_nle. rewrite Hg. cbn [bind].
    rewrite Hr. reflexivity. }
  split; [|exact Hk].
  intros nle H.
  destruct (mapM (window_gt gt) ts_list) as [dfs_gt|e] eqn:Hg.
  - destruct (Hk dfs_gt eq_refl) as (_ & Hraise). congruence.
  - unfold run_nle in H. rewrite Hg in H. discriminate.
Qed.

Lemma nle_needs_two_forecasts_witness :
  (length [[(0%Z, 1); (1%Z, 3)]] < 2)%nat /\
  (forall nle,
     run_nle (schedule_solver idle) sample_config [[(0%Z, 1); (1%Z, 3)]]
       sample_truth <> Ok nle) /\
  (forall dfs_gt,
     mapM (window_gt sample_truth) [[(0%Z, 1); (1%Z, 3)]] = Ok dfs_gt ->
     run_operations (schedule_solver idle) dfs_gt sample_config = Ok [] /\
     run_nle (schedule_solver idle) sample_config [[(0%Z, 1); (1%Z, 3)]]
       sample_truth = Raise KeyError).
Proof.
  split.
  - simpl. lia.
  - apply (nle_needs_two_forecasts (schedule_solver idle) sample_config
             [[(0%Z, 1); (1%Z, 3)]] sample_truth).
    simpl. lia.
Defined.

(** ** Where the floats part from the rationals *)

(** A missing time step leaves a missing cell and raises nothing. *)
Example join_left_nan_missing :
  join_left_nan [(0%Z, 2); (7%Z, 1)] sample_truth = [Some 1; None] /\
  join_left [(0%Z, 2); (7%Z, 1)] sample_truth = Raise NonFinite.
Proof. split; reflexivity. Qed.

(** On a constant ground truth the floats divide by zero and give inf or
    NaN. *)
Example scale_b64_zero_divisor :
  scale_b64 1 1 2 = PrimFloat.infinity /\
  PrimFloat.is_nan (scale_b64 1 1 1) = true.
Proof. split; vm_compute; reflexivity. Qed.

(** With a ground truth between [-1e17] and 1, the forecast 1.5, above the
    maximum, is scaled to 1 by the floats. *)
Example scale_b64_rounds_to_one :
  scale_b64 (-100000000000000000) 1 0x1.8p+0 = 1%float.
Proof. vm_compute. reflexivity. Qed.

(** ** What the loop reads of a window *)

Lemma essential_col0 (w : DataFrame) : iloc_col (essential w) 0 = iloc_col w 0.
Proof. destruct w as [|c0 [|c1 r]]; reflexivity. Qed.

Lemma essential_cell (w : DataFrame) :
  iloc_cell (essential w) 0 1 = iloc_cell w 0 1.
Proof.
  destruct w as [|c0 [|c1 r]]; try reflexivity.
  destruct c1; reflexivity.
Qed.

Lemma removelast_map {A B : Type} (f : A -> B) (l : list A) :
  removelast (map f l) = map f (removelast l).
Proof.
  induction l as [|a r IH]; [reflexivity|].
  destruct r as [|b r']; [reflexivity|].
  cbn [map removelast] in *. rewrite IH. reflexivity.
Qed.

Lemma combine_seq_map {A B : Type} (f : A -> B) (l : list A) :
  forall s,
    combine (seq s (length (map f l))) (map f l)
    = map (fun tw => (fst tw, f (snd tw))) (combine (seq s (length l)) l).
Proof.
  induction l as [|a r IH]; intro s; [reflexivity|].
  cbn [map length seq combine fst snd]. f_equal. apply IH.
Qed.

Lemma step_essential (solver : Solver) (dfs_mpc : list DataFrame)
    (config : Config) (st : SimState) (t : nat) (df : DataFrame) :
  step solver (map essential dfs_mpc) config st t (essential df)
  = step solver dfs_mpc config st t df.
Proof.
  unfold step. rewrite essential_col0.
  destruct (iloc_col df 0) as [lf|e]; [|reflexivity]. cbn [bind].
  destruct (run_opt solver lf (st_energy st) (st_peak st) config) as [sp|e];
    [|reflexivity]. cbn [bind].
  rewrite nth_error_map.
  destruct (nth_error dfs_mpc (S t)) as [next|]; [|reflexivity].
  cbn [option_map of_option bind]. rewrite essential_cell.
  destruct (iloc_cell next 0 1) as [load|e]; [|reflexivity]. cbn [bind].
  unfold update_peak. rewrite essential_col0. reflexivity.
Qed.

Lemma loop_essential (solver : Solver) (dfs_mpc : list DataFrame)
    (config : Config) (items : list (nat * DataFrame)) :
  forall st,
    loop solver (map essential dfs_mpc) config
      (map (fun tw => (fst tw, essential (snd tw))) items) st
    = loop solver dfs_mpc config items st.
Proof.
  induction items as [|[t df] r IH]; intro st; [reflexivity|].
  cbn [map loop fst snd]. rewrite step_essential.
  destruct (step solver dfs_mpc config st t df) as [st'|e]; [|reflexivity].
  cbn [bind]. apply IH.
Qed.

(** X15.  Of each window the run reads the first column and the first cell
    of the second column, and nothing else: the run on the windows cut down
    to these, outcome and trace, is the run on the windows themselves. *)
Theorem only_essential_is_read (solver : Solver) (dfs_mpc : list DataFrame)
    (config : Config) :
  run_operations solver (map essential dfs_mpc) config
  = run_operations solver dfs_mpc config.
Proof.
  unfold run_operations, run_operations_state, enumerate.
  rewrite removelast_map, combine_seq_map, loop_essential. reflexivity.
Qed.


(** * Properties of [bin/utils.py] *)

(** ** [get_locations] *)

Lemma before_sep_clean (sep : ascii) (s : string) :
  contains_char sep (before_sep sep s) = false.
Proof.
  induction s as [|c r IH]; [reflexivity|]. cbn [before_sep].
  destruct (Ascii.eqb c sep) eqn:E; [reflexivity|].
  cbn [contains_char]. rewrite E. exact IH.
Qed.

Lemma before_sep_split (sep : ascii) (a rest : string) :
  contains_char sep a = false ->
  before_sep sep (a ++ String sep rest) = a.
Proof.
  induction a as [|c r IH]; intro H.
  - cbn. rewrite Ascii.eqb_refl. reflexivity.
  - cbn [contains_char] in H. apply orb_false_iff in H. destruct H as (Hc & Hr).
    cbn [String.append before_sep]. rewrite Hc. f_equal. apply IH, Hr.
Qed.

Lemma ends_with_append (a suffix : string) : ends_with (a ++ suffix) suffix = true.
Proof.
  induction a as [|c r IH].
  - cbn [String.append]. destruct suffix; cbn [ends_with];
      rewrite String.eqb_refl; reflexivity.
  - cbn [String.append ends_with]. rewrite IH. apply orb_true_r.
Qed.

(** X16.  Every location returned is free of underscores and is what
    precedes the first underscore in the name of a listed file that ends in
    [_power.csv]; and for every such file [a_..._power.csv] whose first part
    [a] has no underscore, [a] is returned: a location written with an
    underscore comes back as its first part only. *)
Theorem get_locations_first_part (listing : list string) :
  (forall location, In location (get_locations listing) ->
     contains_char "_" location = false /\
     exists file, In file listing /\
       ends_with file "_power.csv" = true /\
       location = before_sep "_" file) /\
  (forall a rest,
     contains_char "_" a = false ->
     In (a ++ String "_" rest)%string listing ->
     ends_with (a ++ String "_" rest) "_power.csv" = true ->
     In a (get_locations listing)) /\
  (forall a,
     contains_char "_" a = false ->
     In (a ++ "_power.csv")%string listing ->
     In a (get_locations listing)).
Proof.
  assert (Hin : forall a rest,
     contains_char "_" a = false ->
     In (a ++ String "_" rest)%string listing ->
     ends_with (a ++ String "_" rest) "_power.csv" = true ->
     In a (get_locations listing)).
  { intros a rest Ha Hfile Hend. unfold get_locations.
    rewrite <- (before_sep_split "_" a rest Ha).
    apply in_map. apply filter_In. split; assumption. }
  split; [|split; [exact Hin|]].
  - intros location H. unfold get_locations in H.
    apply in_map_iff in H. destruct H as (file & <- & Hf).
    apply filter_In in Hf. destruct Hf as (Hf & He).
    split; [apply before_sep_clean|]. exists file. auto.
  - intros a Ha Hfile. apply (Hin a "power.csv"%string Ha Hfile).
    apply (ends_with_append a "_power.csv").
Qed.

Lemma get_locations_first_part_witness :
  get_locations ["Los_Angeles_power.csv"; "notes.txt"; "Sacramento_power.csv"]%string
  = ["Los"; "Sacramento"]%string /\
  In "Los"%string
    (get_locations ["Los_Angeles_power.csv"; "notes.txt"; "Sacramento_power.csv"]%string).
Proof.
  split; [reflexivity|].
  destruct (get_locations_first_part
              ["Los_Angeles_power.csv"; "notes.txt"; "Sacramento_power.csv"]%string)
    as (_ & H & _).
  apply (H "Los"%string "Angeles_power.csv"%string).
  - reflexivity.
  - left. reflexivity.
  - reflexivity.
Defined.

(** ** [drop_duplicate_index] and [remove_duplicate_index] *)

Lemma existsb_eqb_In (i : Z) (seen : list Z) :
  existsb (Z.eqb i) seen = true <-> In i seen.
Proof.
  rewrite existsb_exists. split.
  - intros (j & Hj & E). apply Z.eqb_eq in E. subst j. exact Hj.
  - intro H. exists i. split; [exact H | apply Z.eqb_refl].
Qed.

Lemma select_keep_new {A : Type} (df : IndexedFrame A) :
  forall seen,
    select df (map negb (duplicated_from seen (labels df))) = keep_new seen df.
Proof.
  induction df as [|[i x] r IH]; intro seen; [reflexivity|].
  cbn [labels map fst duplicated_from keep_new].
  unfold select in *. cbn [combine filter snd].
  destruct (existsb (Z.eqb i) seen); cbn [negb map fst]; rewrite <- IH;
    reflexivity.
Qed.

Lemma keep_new_labels {A : Type} (df : IndexedFrame A) :
  forall seen i,
    In i (labels (keep_new seen df)) <-> (In i (labels df) /\ ~ In i seen).
Proof.
  unfold labels.
  induction df as [|[j x] r IH]; intros seen i; cbn [keep_new map fst].
  - cbn [In]. tauto.
  - destruct (existsb (Z.eqb j) seen) eqn:E.
    + apply existsb_eqb_In in E. rewrite IH. cbn [In]. split.
      * intros (H1 & H2). split; [right; exact H1 | tauto].
      * intros ([-> | H1] & H2); [contradiction|]. split; [exact H1|].
        intros [-> | H3]; contradiction.
    + assert (Hn : ~ In j seen).
      { intro H. apply existsb_eqb_In in H. congruence. }
      cbn [map fst In]. rewrite IH. cbn [In]. split.
      * intros [-> | (H1 & H2)]; [tauto|]. split; [right; exact H1 | tauto].
      * intros ([-> | H1] & H2); [left; reflexivity|].
        destruct (Z.eq_dec j i) as [->|Hne]; [left; reflexivity|].
        right. split; [exact H1|]. intros [H3 | H3]; contradiction.
Qed.

Lemma keep_new_NoDup {A : Type} (df : IndexedFrame A) :
  forall seen, NoDup (labels (keep_new seen df)).
Proof.
  induction df as [|[j x] r IH]; intro seen; cbn [keep_new].
  - constructor.
  - destruct (existsb (Z.eqb j) seen); [apply IH|].
    unfold labels. cbn [map fst]. constructor; [|apply IH].
    fold (labels (keep_new (j :: seen) r)).
    rewrite keep_new_labels. intros (_ & H). apply H. left. reflexivity.
Qed.

Lemma keep_new_first_row {A : Type} (df : IndexedFrame A) :
  forall seen i, ~ In i seen ->
    first_row (keep_new seen df) i = first_row df i.
Proof.
  induction df as [|[j x] r IH]; intros seen i Hi; [reflexivity|].
  cbn [keep_new first_row].
  destruct (existsb (Z.eqb j) seen) eqn:E.
  - apply existsb_eqb_In in E.
    destruct (Z.eqb_spec j i) as [->|Hne]; [contradiction|].
    apply IH. intros [H | H]; [congruence | contradiction].
  - cbn [first_row]. destruct (Z.eqb_spec j i) as [->|Hne]; [reflexivity|].
    apply IH. intros [H | H]; [congruence | contradiction].
Qed.

Lemma keep_new_id {A : Type} (df : IndexedFrame A) :
  forall seen,
    NoDup (labels df) -> (forall i, In i (labels df) -> ~ In i seen) ->
    keep_new seen df = df.
Proof.
  unfold labels.
  induction df as [|[j x] r IH]; intros seen Hnd Hdis; [reflexivity|].
  cbn [keep_new]. cbn [map fst] in Hnd, Hdis.
  inversion Hnd as [|? ? Hj Hr]; subst.
  destruct (existsb (Z.eqb j) seen) eqn:E.
  - apply existsb_eqb_In in E. exfalso.
    apply (Hdis j); [left; reflexivity | exact E].
  - f_equal. apply IH; [exact Hr|].
    intros i Hi [H | H]; [subst; contradiction|].
    apply (Hdis i); [right; exact Hi | exact H].
Qed.

(** X17.  [drop_duplicate_index] returns a frame whose index has no
    duplicate, with the same labels as the frame it is given and, under each
    label, the first of the rows that carried it; it changes nothing in a
    frame without duplicates, so that applying it twice is applying it once;
    and [remove_duplicate_index] returns the same frame. *)
Theorem drop_duplicate_index_keeps_first {A : Type} (df : IndexedFrame A) :
  NoDup (labels (drop_duplicate_index df)) /\
  (forall i, In i (labels (drop_duplicate_index df)) <-> In i (labels df)) /\
  (forall i, first_row (drop_duplicate_index df) i = first_row df i) /\
  (NoDup (labels df) -> drop_duplicate_index df = df) /\
  drop_duplicate_index (drop_duplicate_index df) = drop_duplicate_index df /\
  remove_duplicate_index df = drop_duplicate_index df.
Proof.
  assert (E : forall d : IndexedFrame A, drop_duplicate_index d = keep_new [] d).
  { intro d. unfold drop_duplicate_index, duplicated. apply select_keep_new. }
  assert (Hid : forall d : IndexedFrame A,
             NoDup (labels d) -> drop_duplicate_index d = d).
  { intros d Hd. rewrite E. apply keep_new_id; [exact Hd|]. intros i _ []. }
  rewrite !E. split; [apply keep_new_NoDup|].
  split; [intro i; rewrite keep_new_labels; cbn [In]; tauto|].
  split; [intro i; apply keep_new_first_row; intros []|].
  split; [rewrite <- E; apply Hid|].
  split; [rewrite <- !E; apply Hid; rewrite E; apply keep_new_NoDup|].
  unfold remove_duplicate_index. rewrite <- E. reflexivity.
Qed.

Lemma drop_duplicate_index_keeps_first_witness :
  drop_duplicate_index [(1%Z, 10); (2%Z, 20); (1%Z, 30); (3%Z, 40); (2%Z, 50)]
  = [(1%Z, 10); (2%Z, 20); (3%Z, 40)] /\
  NoDup (labels (drop_duplicate_index
                   [(1%Z, 10); (2%Z, 20); (1%Z, 30); (3%Z, 40); (2%Z, 50)])).
Proof.
  split; [reflexivity|].
  apply (drop_duplicate_index_keeps_first
           [(1%Z, 10); (2%Z, 20); (1%Z, 30); (3%Z, 40); (2%Z, 50)]).
Defined.

(** ** [ts_list_concat] *)

Section TsListConcatFacts.
Variable TS : Type.
Variable Time : Type.
Variable end_time : TS -> result Time.
Variable drop_last : TS -> result TS.
Variable from_time : TS -> Time -> result TS.
Variable append_ts : TS -> TS -> result TS.

Local Abbreviation concat_list :=
  (ts_list_concat TS Time end_time drop_last from_time append_ts).

(** X18.  [ts_list_concat] never reads the last series of its list: the
    result for a list of at least two series is that for the list with any
    other last series, a list of one or two series gives back the first one
    untouched, and the empty list is an [IndexError]. *)
Theorem ts_list_concat_ignores_last :
  concat_list [] = Raise IndexError /\
  (forall ts, concat_list [ts] = Ok ts) /\
  (forall ts last, concat_list [ts; last] = Ok ts) /\
  (forall l last last',
     l <> [] -> concat_list (l ++ [last]) = concat_list (l ++ [last'])) /\
  (forall ts middle last,
     concat_list (ts :: middle ++ [last])
     = concat_loop TS Time end_time drop_last from_time append_ts ts middle).
Proof.
  split; [reflexivity|]. split; [reflexivity|]. split; [reflexivity|].
  assert (H : forall ts middle last,
     concat_list (ts :: middle ++ [last])
     = concat_loop TS Time end_time drop_last from_time append_ts ts middle).
  { intros ts middle last. unfold ts_list_concat.
    rewrite removelast_last. reflexivity. }
  split; [|exact H].
  intros l last last' Hne. destruct l as [|ts middle]; [congruence|].
  cbn [app]. rewrite !H. reflexivity.
Qed.
End TsListConcatFacts.

Lemma ts_list_concat_ignores_last_witness :
  ts_list_concat (list Z) Z steps_end_time steps_drop_last steps_from_time
    steps_append [[1; 2; 3]; [3; 4; 5]; [5; 6; 7]]%Z
  = Ok [1; 2; 3; 4; 5]%Z /\
  ts_list_concat (list Z) Z steps_end_time steps_drop_last steps_from_time
    steps_append ([[1; 2; 3]; [3; 4; 5]] ++ [[5; 6; 7]])%Z
  = ts_list_concat (list Z) Z steps_end_time steps_drop_last steps_from_time
      steps_append ([[1; 2; 3]; [3; 4; 5]] ++ [[]])%Z.
Proof.
  split; [reflexivity|].
  destruct (ts_list_concat_ignores_last (list Z) Z steps_end_time
              steps_drop_last steps_from_time steps_append)
    as (_ & _ & _ & H & _).
  apply H. discriminate.
Defined.

(** ** [get_year_list] *)

Lemma unique_from_In (l : list Z) :
  forall seen y,
    In y (unique_from seen l) <-> (In y l /\ ~ In y seen).
Proof.
  induction l as [|x r IH]; intros seen y; cbn [unique_from].
  - cbn [In]. tauto.
  - destruct (existsb (Z.eqb x) seen) eqn:E.
    + apply existsb_eqb_In in E. rewrite IH. cbn [In]. split.
      * intros (H1 & H2). tauto.
      * intros ([-> | H1] & H2); [contradiction | tauto].
    + assert (Hn : ~ In x seen).
      { intro H. apply existsb_eqb_In in H. congruence. }
      cbn [In]. rewrite IH. cbn [In]. split.
      * intros [-> | (H1 & H2)]; tauto.
      * intros ([-> | H1] & H2); [left; reflexivity|].
        destruct (Z.eq_dec x y) as [->|Hne]; [left; reflexivity|].
        right. split; [exact H1|]. intros [H3 | H3]; contradiction.
Qed.

Lemma unique_from_NoDup (l : list Z) : forall seen, NoDup (unique_from seen l).
Proof.
  induction l as [|x r IH]; intro seen; cbn [unique_from].
  - constructor.
  - destruct (existsb (Z.eqb x) seen); [apply IH|].
    constructor; [|apply IH].
    rewrite unique_from_In. intros (_ & H). apply H. left. reflexivity.
Qed.

Lemma insert_sorted_In (x : Z) (l : list Z) (y : Z) :
  In y (insert_sorted x l) <-> (y = x \/ In y l).
Proof.
  induction l as [|z r IH]; cbn [insert_sorted].
  - cbn [In]. intuition.
  - destruct (Z.leb x z); cbn [In]; [intuition|]. rewrite IH. intuition.
Qed.

Lemma sort_values_In (l : list Z) (y : Z) : In y (sort_values l) <-> In y l.
Proof.
  unfold sort_values. induction l as [|x r IH]; cbn [fold_right]; [tauto|].
  rewrite insert_sorted_In, IH. cbn [In]. intuition.
Qed.

Lemma insert_sorted_lt (x : Z) (l : list Z) :
  StronglySorted Z.lt l -> ~ In x l -> StronglySorted Z.lt (insert_sorted x l).
Proof.
  induction l as [|z r IH]; intros Hs Hx; cbn [insert_sorted].
  - constructor; constructor.
  - inversion Hs as [|? ? Hr Hz]; subst.
    assert (Hne : x <> z) by (intro E; apply Hx; left; congruence).
    destruct (Z.leb_spec x z) as [Hle|Hgt].
    + constructor; [exact Hs|]. constructor; [lia|].
      eapply Forall_impl; [|exact Hz]. intros a Ha. cbv beta in *. lia.
    + constructor.
      * apply IH; [exact Hr|]. intro H. apply Hx. right. exact H.
      * apply Forall_forall. intros a Ha. apply insert_sorted_In in Ha.
        destruct Ha as [-> | Ha]; [lia|].
        rewrite Forall_forall in Hz. apply Hz, Ha.
Qed.

Lemma sort_values_lt (l : list Z) :
  NoDup l -> StronglySorted Z.lt (sort_values l).
Proof.
  unfold sort_values. induction 1 as [|x r Hx Hr IH]; cbn [fold_right].
  - constructor.
  - apply insert_sorted_lt; [exact IH|].
    intro H. apply Hx. apply (sort_values_In r x). exact H.
Qed.

(** X19.  [get_year_list] returns the years of the index in strictly
    increasing order: every year of the index is in the list, once, and
    nothing else is. *)
Theorem get_year_list_sorted (index_year : list Z) :
  StronglySorted Z.lt (get_year_list index_year) /\
  NoDup (get_year_list index_year) /\
  forall y, In y (get_year_list index_year) <-> In y index_year.
Proof.
  unfold get_year_list, unique.
  assert (Hs : StronglySorted Z.lt (sort_values (unique_from [] index_year))).
  { apply sort_values_lt, unique_from_NoDup. }
  split; [exact Hs|]. split.
  - clear -Hs. induction Hs as [|a l _ IH Ha]; constructor; [|exact IH].
    intro H. rewrite Forall_forall in Ha. specialize (Ha a H). lia.
  - intro y. rewrite sort_values_In, unique_from_In. cbn [In]. tauto.
Qed.

(** ** [calc_rolling_sum_of_load] *)

Lemma seq_as_map_S (a len : nat) : seq (S a) len = map S (seq a len).
Proof. symmetry. apply seq_shift. Qed.

Lemma firstn_of_seq (n a len : nat) :
  firstn n (seq a len) = seq a (Nat.min n len).
Proof.
  revert a len. induction n as [|n IH]; intros a len; [reflexivity|].
  destruct len as [|len]; [reflexivity|].
  cbn [seq firstn Nat.min]. f_equal. apply IH.
Qed.

Lemma shift_one_map {A : Type} (f : nat -> option A) (L : nat) :
  shift_one (map f (seq 0 L))
  = map (fun i => match i with O => None | S j => f j end) (seq 0 L).
Proof.
  unfold shift_one. rewrite length_map, length_seq.
  set (g := fun i => match i with O => None | S j => f j end).
  assert (E : None :: map f (seq 0 L) = map g (seq 0 (S L))).
  { cbn [seq map]. f_equal. rewrite seq_as_map_S, map_map. reflexivity. }
  rewrite E, firstn_map, firstn_of_seq. f_equal. f_equal. lia.
Qed.

Lemma rolling_column (n : nat) (s : list Q) :
  (1 <= n)%nat ->
  shift_one (rolling_sum n s)
  = map (fun i =>
           if (n <=? i)%nat then Some (Qsum (firstn n (skipn (i - n) s)))
           else None)
        (seq 0 (length s)).
Proof.
  intro Hn. unfold rolling_sum. rewrite shift_one_map.
  apply map_ext. intros [|j]; [|reflexivity].
  destruct (Nat.leb_spec n 0); [lia | reflexivity].
Qed.

Lemma list_as_map_seq {A : Type} (d : A) (l : list A) :
  l = map (fun i => nth i l d) (seq 0 (length l)).
Proof.
  induction l as [|a r IH]; [reflexivity|].
  cbn [length seq map nth]. f_equal.
  rewrite seq_as_map_S, map_map. exact IH.
Qed.

Lemma combine_map_same {A B C : Type} (f : A -> B) (g : A -> C) (l : list A) :
  combine (map f l) (map g l) = map (fun x => (f x, g x)) l.
Proof.
  induction l as [|a r IH]; [reflexivity|]. cbn [map combine]. f_equal. exact IH.
Qed.

Lemma combine_with_seq {A B : Type} (d : A) (l : list A) (h : nat -> B) :
  combine l (map h (seq 0 (length l)))
  = map (fun i => (nth i l d, h i)) (seq 0 (length l)).
Proof.
  transitivity (combine (map (fun i => nth i l d) (seq 0 (length l)))
                  (map h (seq 0 (length l)))).
  - f_equal. apply list_as_map_seq.
  - apply combine_map_same.
Qed.

Lemma combine_seq_self {B : Type} (k : nat -> B) (L : nat) :
  combine (seq 0 L) (map k (seq 0 L)) = map (fun i => (i, k i)) (seq 0 L).
Proof.
  transitivity (combine (map (fun i => i) (seq 0 L)) (map k (seq 0 L))).
  - f_equal. symmetry. apply map_id.
  - apply combine_map_same.
Qed.

Lemma flat_map_guard {A : Type} (n : nat) (G : nat -> A) (a len : nat) :
  flat_map (fun i => if (n <=? i)%nat then [G i] else []) (seq a len)
  = map G (seq (Nat.max a n) (a + len - Nat.max a n)).
Proof.
  revert a. induction len as [|len IH]; intro a.
  - replace (a + 0 - Nat.max a n)%nat with 0%nat by lia. reflexivity.
  - cbn [seq flat_map]. rewrite IH.
    destruct (Nat.leb_spec n a) as [Hle|Hgt].
    + replace (Nat.max (S a) n) with (S a) by lia.
      replace (Nat.max a n) with a by lia.
      replace (a + S len - a)%nat with (S len) by lia.
      replace (S a + len - S a)%nat with len by lia. reflexivity.
    + replace (Nat.max (S a) n) with (Nat.max a n) by lia.
      replace (S a + len)%nat with (a + S len)%nat by lia. reflexivity.
Qed.

(** X20.  For a window of [n >= 1] days and a frame of [L] rows,
    [calc_rolling_sum_of_load] returns the rows at the positions
    [n, ..., L-1], in order (none when [L <= n]), each with a [rolling_sum]
    that is the total load of the [n] rows before it, its own row not
    included; the frame of the caller keeps its [L] rows and gets the column
    too, without a value in its first [n] rows. *)
Theorem rolling_sum_of_previous_days (df : list (list Q)) (n_days : positive) :
  let n := Pos.to_nat n_days in
  let L := length df in
  snd (calc_rolling_sum_of_load df n_days)
  = map (fun i => (i, (nth i df [], load_before df n i))) (seq n (L - n)) /\
  fst (calc_rolling_sum_of_load df n_days)
  = map (fun i =>
           (i, (nth i df [],
                if (n <=? i)%nat then Some (load_before df n i) else None)))
        (seq 0 L).
Proof.
  intros n L.
  assert (Hn : (1 <= n)%nat) by (unfold n; lia).
  assert (Hset : fst (calc_rolling_sum_of_load df n_days)
    = map (fun i =>
             (i, (nth i df [],
                  if (n <=? i)%nat then Some (load_before df n i) else None)))
          (seq 0 L)).
  { unfold calc_rolling_sum_of_load. cbn [fst]. fold n.
    rewrite (rolling_column n (row_totals df) Hn).
    replace (length (row_totals df)) with (length df)
      by (unfold row_totals; rewrite length_map; reflexivity).
    unfold set_rolling_sum. rewrite (combine_with_seq [] df).
    apply combine_seq_self. }
  split; [|exact Hset].
  change (snd (calc_rolling_sum_of_load df n_days))
    with (dropna (fst (calc_rolling_sum_of_load df n_days))).
  rewrite Hset. unfold dropna. rewrite flat_map_concat_map, map_map.
  rewrite <- flat_map_concat_map. cbn [fst snd].
  erewrite flat_map_ext.
  - rewrite (flat_map_guard n
               (fun i => (i, (nth i df [], load_before df n i))) 0 L).
    replace (Nat.max 0 n) with n by lia. reflexivity.
  - intro i. cbv beta. destruct (n <=? i)%nat; reflexivity.
Qed.

Example rolling_sum_two_days :
  calc_rolling_sum_of_load [[1]; [2]; [3]; [4]] 2
  = ([(0%nat, ([1], None)); (1%nat, ([2], None));
      (2%nat, ([3], Some (0 + 1 + 2))); (3%nat, ([4], Some (0 + 2 + 3)))],
     [(2%nat, ([3], 0 + 1 + 2)); (3%nat, ([4], 0 + 2 + 3))]).
Proof. reflexivity. Qed.

(** ** [get_df_diffs] *)

Lemma diff_of_two_columns (n : nat) (df : DataFrame) :
  two_columns n df ->
  diff_of df = Ok (diff_values df) /\ length (diff_values df) = n.
Proof.
  intros (c0 & c1 & rest & -> & H0 & H1). split; [reflexivity|].
  unfold diff_values. cbn [nth]. rewrite length_map, length_combine. lia.
Qed.

Lemma pad_full (n : nat) (c : list (option Q)) : length c = n -> pad n c = c.
Proof.
  intro H. unfold pad. rewrite H, Nat.sub_diag. apply app_nil_r.
Qed.

Lemma diffs_loop_aligned (n : nat) (df_list : list DataFrame) :
  forall cols,
    Forall (fun c => length c = n) cols ->
    Forall (two_columns n) df_list ->
    diffs_loop {| na_rows := n; na_columns := cols |} df_list
    = Ok {| na_rows := n;
            na_columns :=
              cols ++ map (fun df => map Some (diff_values df)) df_list |}.
Proof.
  induction df_list as [|df r IH]; intros cols Hc Hl.
  - cbn [diffs_loop map]. rewrite app_nil_r. reflexivity.
  - inversion Hl as [|? ? Hdf Hr]; subst.
    destruct (diff_of_two_columns n df Hdf) as (Hd & Hlen).
    cbn [diffs_loop]. rewrite Hd. cbn [bind].
    unfold concat_axis1. cbn [na_rows na_columns]. rewrite Hlen, Nat.max_id.
    assert (Hpad : map (pad n) cols = cols).
    { clear -Hc. induction Hc as [|c cs Hc _ IHc]; [reflexivity|].
      cbn [map]. rewrite (pad_full n c Hc), IHc. reflexivity. }
    rewrite Hpad, (pad_full n (map Some (diff_values df)))
      by (rewrite length_map; exact Hlen).
    rewrite IH.
    + cbn [map]. rewrite <- app_assoc. reflexivity.
    + apply Forall_app. split; [exact Hc|]. constructor; [|constructor].
      rewrite length_map. exact Hlen.
    + exact Hr.
Qed.

(** X21.  On a non-empty list of frames that all have [n] rows in their
    first two columns, [get_df_diffs] returns a frame of [n] rows with one
    column per frame, in order, and no missing value: the column of a frame
    holds, row by row, its first column minus its second. *)
Theorem get_df_diffs_columns (n : nat) (df_list : list DataFrame) :
  df_list <> [] -> Forall (two_columns n) df_list ->
  get_df_diffs df_list
  = Ok {| na_rows := n;
          na_columns := map (fun df => map Some (diff_values df)) df_list |}.
Proof.
  intros Hne Hl. destruct df_list as [|df0 r]; [congruence|].
  unfold get_df_diffs. cbn [nth_error of_option bind].
  assert (Hs : shape0 df0 = n).
  { inversion Hl as [|? ? Hdf0 _]; subst.
    destruct Hdf0 as (c0 & c1 & rest & -> & H0 & _). exact H0. }
  rewrite Hs. apply (diffs_loop_aligned n (df0 :: r) []); [constructor | exact Hl].
Qed.

Lemma get_df_diffs_columns_witness :
  get_df_diffs [[[3; 5]; [1; 5]; [9; 9]]; [[2; 2]; [4; 1]]]
  = Ok {| na_rows := 2;
          na_columns :=
            map (fun df => map Some (diff_values df))
              [[[3; 5]; [1; 5]; [9; 9]]; [[2; 2]; [4; 1]]] |}.
Proof.
  apply (get_df_diffs_columns 2).
  - discriminate.
  - constructor; [|constructor; [|constructor]].
    + exists [3; 5], [1; 5], [[9; 9]]. repeat split.
    + exists [2; 2], [4; 1], []. repeat split.
Defined.

Lemma diff_of_outcome (df : DataFrame) :
  (exists d, diff_of df = Ok d) \/ diff_of df = Raise IndexError.
Proof.
  destruct df as [|c0 [|c1 r]]; [right; reflexivity | right; reflexivity|].
  left. eexists. reflexivity.
Qed.

Lemma diff_of_few_columns (df : DataFrame) :
  (length df < 2)%nat -> diff_of df = Raise IndexError.
Proof.
  destruct df as [|c0 [|c1 r]]; cbn [length]; intro H; try reflexivity; lia.
Qed.

Lemma diff_of_firstn (df : DataFrame) : diff_of (firstn 2 df) = diff_of df.
Proof. destruct df as [|c0 [|c1 r]]; reflexivity. Qed.

Lemma diffs_loop_few_columns (df_list : list DataFrame) (df : DataFrame) :
  In df df_list -> (length df < 2)%nat ->
  forall d, diffs_loop d df_list = Raise IndexError.
Proof.
  induction df_list as [|a r IH]; intros Hin Hl d; [contradiction|].
  cbn [diffs_loop]. destruct Hin as [-> | Hin].
  - rewrite (diff_of_few_columns df Hl). reflexivity.
  - destruct (diff_of_outcome a) as [(x & ->) | ->]; [|reflexivity].
    cbn [bind]. apply IH; assumption.
Qed.

Lemma diffs_loop_firstn (df_list : list DataFrame) :
  forall d, diffs_loop d (map (firstn 2) df_list) = diffs_loop d df_list.
Proof.
  induction df_list as [|a r IH]; intro d; [reflexivity|].
  cbn [map diffs_loop]. rewrite diff_of_firstn.
  destruct (diff_of a); [cbn [bind]; apply IH | reflexivity].
Qed.

(** X22.  [get_df_diffs] reads the first two columns of each frame and no
    other: the result is that for the frames cut down to two columns.  It
    raises an [IndexError] on the empty list and whenever some frame has
    fewer than two columns. *)
Theorem get_df_diffs_two_columns_only (df_list : list DataFrame) :
  get_df_diffs (map (firstn 2) df_list) = get_df_diffs df_list /\
  get_df_diffs [] = Raise IndexError /\
  (forall df, In df df_list -> (length df < 2)%nat ->
     get_df_diffs df_list = Raise IndexError).
Proof.
  split; [|split; [reflexivity|]].
  - unfold get_df_diffs. destruct df_list as [|df0 r]; [reflexivity|].
    cbn [map nth_error of_option bind].
    change (firstn 2 df0 :: map (firstn 2) r) with (map (firstn 2) (df0 :: r)).
    rewrite diffs_loop_firstn.
    replace (shape0 (firstn 2 df0)) with (shape0 df0); [reflexivity|].
    destruct df0 as [|c0 [|c1 r']]; reflexivity.
  - intros df Hin Hl. unfold get_df_diffs.
    destruct df_list as [|df0 r]; [contradiction|].
    cbn [nth_error of_option bind].
    apply (diffs_loop_few_columns (df0 :: r) df Hin Hl).
Qed.

Lemma get_df_diffs_two_columns_only_witness :
  get_df_diffs [[[3; 5]; [1; 5]]; [[2; 2]]] = Raise IndexError.
Proof.
  destruct (get_df_diffs_two_columns_only [[[3; 5]; [1; 5]]; [[2; 2]]])
    as (_ & _ & H).
  apply (H [[2; 2]]).
  - right. left. reflexivity.
  - simpl. lia.
Defined.

(** ** [calc_error_scores] *)

Lemma scores_get_set_same (d : Scores) (k : string) (x : Q) :
  scores_get (scores_set d k x) k = Some x.
Proof.
  induction d as [|[k' x'] r IH]; cbn [scores_set scores_get].
  - rewrite String.eqb_refl. reflexivity.
  - destruct (String.eqb k' k) eqn:E; cbn [scores_get].
    + rewrite String.eqb_refl. reflexivity.
    + rewrite E. exact IH.
Qed.

Lemma scores_get_set_other (d : Scores) (k k0 : string) (x : Q) :
  k <> k0 -> scores_get (scores_set d k x) k0 = scores_get d k0.
Proof.
  intro Hne. induction d as [|[k' x'] r IH]; cbn [scores_set scores_get].
  - destruct (String.eqb_spec k k0); [contradiction | reflexivity].
  - destruct (String.eqb_spec k' k) as [->|Hk]; cbn [scores_get].
    + destruct (String.eqb_spec k k0); [contradiction | reflexivity].
    + destruct (String.eqb k' k0); [reflexivity | exact IH].
Qed.

Lemma scores_set_keys (d : Scores) (k : string) (x : Q) :
  NoDup (map fst d) ->
  NoDup (map fst (scores_set d k x)) /\
  forall k0, In k0 (map fst (scores_set d k x)) <-> (k0 = k \/ In k0 (map fst d)).
Proof.
  induction d as [|[k' x'] r IH]; intro Hnd; cbn [scores_set map fst].
  - split; [constructor; [intros [] | constructor]|].
    intro k0. cbn [In]. intuition.
  - cbn [map fst] in Hnd. inversion Hnd as [|? ? Hk' Hr]; subst.
    destruct (String.eqb_spec k' k) as [->|Hk]; cbn [map fst].
    + split; [exact Hnd|]. intro k0. cbn [In]. intuition.
    + destruct (IH Hr) as (IH1 & IH2). split.
      * constructor; [|exact IH1]. rewrite IH2. intros [H | H]; [congruence | contradiction].
      * intro k0. cbn [In]. rewrite IH2. intuition.
Qed.

Section ErrorScores.
Variable P T : Type.
Variable ts_predictions_inverse : P.
Variable trg_inversed : T.

Local Abbreviation run_loop d ms :=
  (scores_loop d ms ts_predictions_inverse trg_inversed).

Lemma scores_loop_app (pre post : list (Metric P T)) :
  forall d,
    run_loop d (pre ++ post) = d1 <- run_loop d pre ;; run_loop d1 post.
Proof.
  induction pre as [|m r IH]; intro d; [reflexivity|].
  cbn [app scores_loop].
  destruct (metric_call m ts_predictions_inverse trg_inversed); [|reflexivity].
  cbn [bind]. apply IH.
Qed.

Lemma scores_loop_untouched (ms : list (Metric P T)) (k : string) :
  (forall m, In m ms -> metric_name m <> k) ->
  forall d d', run_loop d ms = Ok d' -> scores_get d' k = scores_get d k.
Proof.
  induction ms as [|m r IH]; intros Hk d d' H.
  - injection H as <-. reflexivity.
  - cbn [scores_loop] in H. inv_bind H.
    rewrite (IH (fun m' Hm' => Hk m' (or_intror Hm')) _ _ H).
    apply scores_get_set_other. apply Hk. left. reflexivity.
Qed.

Lemma scores_loop_keys (ms : list (Metric P T)) :
  forall d d',
    NoDup (map fst d) -> run_loop d ms = Ok d' ->
    NoDup (map fst d') /\
    forall k, In k (map fst d') <->
              (In k (map fst d) \/ In k (map metric_name ms)).
Proof.
  induction ms as [|m r IH]; intros d d' Hnd H.
  - injection H as <-. split; [exact Hnd|]. intro k. cbn [map In]. tauto.
  - cbn [scores_loop] in H. inv_bind H.
    destruct (scores_set_keys d (metric_name m) x Hnd) as (S1 & S2).
    destruct (IH _ _ S1 H) as (I1 & I2). split; [exact I1|].
    intro k. rewrite I2, S2. cbn [map In]. intuition.
Qed.

(** X23.  The scores are kept under the metrics' names: the dict has no
    key twice, its keys are the names of the metrics, and under a name it
    holds the score of the last metric that bears it, so that of several
    metrics with one name a single score remains. *)
Theorem calc_error_scores_last_wins (metrics : list (Metric P T))
    (d : Scores) :
  calc_error_scores metrics ts_predictions_inverse trg_inversed = Ok d ->
  NoDup (map fst d) /\
  (forall k, In k (map fst d) <-> In k (map metric_name metrics)) /\
  (forall pre m post,
     metrics = pre ++ m :: post ->
     (forall m', In m' post -> metric_name m' <> metric_name m) ->
     exists score,
       metric_call m ts_predictions_inverse trg_inversed = Ok score /\
       scores_get d (metric_name m) = Some score).
Proof.
  intro H. unfold calc_error_scores in H.
  destruct (scores_loop_keys metrics [] d (NoDup_nil _) H) as (K1 & K2).
  split; [exact K1|]. split.
  - intro k. rewrite K2. cbn [map In]. tauto.
  - intros pre m post -> Hpost.
    rewrite scores_loop_app in H. inv_bind H.
    cbn [scores_loop] in H. inv_bind H.
    exists x0. split; [exact Hx0|].
    rewrite (scores_loop_untouched post (metric_name m) Hpost _ _ H).
    apply scores_get_set_same.
Qed.
End ErrorScores.

Lemma calc_error_scores_last_wins_witness :
  let mae := mkMetric Q Q "metric" (fun p t => Ok (Qabs (p - t))) in
  let err := mkMetric Q Q "metric" (fun p t => Ok (p - t)) in
  exists d,
    calc_error_scores [mae; err] 3 5 = Ok d /\
    length d = 1%nat /\
    exists score,
      metric_call err 3 5 = Ok score /\
      scores_get d (metric_name err) = Some score.
Proof.
  intros mae err. eexists. split; [reflexivity|]. split; [reflexivity|].
  destruct (calc_error_scores_last_wins Q Q 3 5 [mae; err] _ eq_refl)
    as (_ & _ & H).
  apply (H [mae] err []).
  - reflexivity.
  - intros m' [].
Defined.

(** ** [boxcox_transform] *)

Section BoxCoxFacts.
Variable special_boxcox : Q -> Q -> Q.
Variable boxcox_normmax : list Q -> Q.
Variable data_ok : list Q -> bool.
Variable data_ok_given : list Q -> bool.

Local Abbreviation bc := (boxcox special_boxcox boxcox_normmax data_ok data_ok_given).
Local Abbreviation bc_loop :=
  (boxcox_loop special_boxcox boxcox_normmax data_ok data_ok_given).
Local Abbreviation bc_transform :=
  (boxcox_transform special_boxcox boxcox_normmax data_ok data_ok_given).

Lemma unpack2_not_two (y : list Q) :
  length y <> 2%nat -> unpack2 (Transformed y) = Raise ValueError.
Proof.
  destruct y as [|a [|b [|c r]]]; cbn [length]; intro H; try reflexivity.
  exfalso. apply H. reflexivity.
Qed.

Lemma given_lambda_fails (column : list Q) (l : Q) :
  length column <> 2%nat ->
  (value <- bc column (Some l) ;; unpack2 value) = Raise ValueError.
Proof.
  intro H. unfold boxcox. destruct (data_ok_given column); [|reflexivity].
  cbn [bind]. apply unpack2_not_two. rewrite length_map. exact H.
Qed.

Lemma loop_given_lambda_fails (done todo : list (list Q)) (l : Q) :
  todo <> [] -> Forall (fun c => length c <> 2%nat) todo ->
  bc_loop done todo (Some l) = Raise ValueError.
Proof.
  intros Hne Hl. destruct todo as [|column rest]; [congruence|].
  inversion Hl as [|? ? Hc _]; subst. cbn [boxcox_loop].
  pose proof (given_lambda_fails column l Hc) as H.
  destruct (bc column (Some l)) as [value|e]; cbn [bind] in *.
  - rewrite H. reflexivity.
  - injection H as ->. reflexivity.
Qed.

(** X24.  On a frame whose columns do not have exactly two rows,
    [boxcox_transform] ends in a [ValueError] whenever a lambda is passed to
    it, and also, without a lambda, whenever the frame has two columns or
    more: the lambda fitted to the first column is handed on to the second.
    Without a lambda, a frame of one non-empty column that passes the checks
    comes back transformed with the lambda fitted to it. *)
Theorem boxcox_transform_one_column_only (dataframe : DataFrame) :
  Forall (fun c => length c <> 2%nat) dataframe ->
  (forall l, dataframe <> [] ->
     bc_transform dataframe (Some l) = Raise ValueError) /\
  ((2 <= length dataframe)%nat ->
     bc_transform dataframe None = Raise ValueError) /\
  (forall column,
     dataframe = [column] -> column <> [] -> data_ok column = true ->
     bc_transform dataframe None
     = Ok ([map (fun xi => special_boxcox xi (boxcox_normmax column)) column],
           Some (boxcox_normmax column))).
Proof.
  intro Hl. split; [|split].
  - intros l Hne. apply loop_given_lambda_fails; assumption.
  - intro H2. destruct dataframe as [|c0 [|c1 rest]]; cbn [length] in H2; try lia.
    inversion Hl as [|? ? Hc0 Hrest]; subst.
    unfold boxcox_transform. cbn [boxcox_loop]. unfold boxcox at 1.
    destruct c0 as [|x0 c0]; [reflexivity|].
    destruct (data_ok (x0 :: c0)); [|reflexivity].
    cbn [bind unpack2 fst snd].
    assert (Hne : c1 :: rest <> []) by discriminate.
    exact (loop_given_lambda_fails _ (c1 :: rest) _ Hne Hrest).
  - intros column -> Hne Hok.
    unfold boxcox_transform. cbn [boxcox_loop]. unfold boxcox.
    destruct column as [|x0 c0]; [congruence|].
    rewrite Hok. reflexivity.
Qed.
End BoxCoxFacts.

Lemma boxcox_transform_one_column_only_witness :
  Forall (fun c => length c <> 2%nat) [[1; 2; 3]; [4; 5; 6]] /\
  boxcox_transform sample_special_boxcox sample_normmax sample_data_ok
    (fun _ => true) [[1; 2; 3]; [4; 5; 6]] (Some 1) = Raise ValueError /\
  boxcox_transform sample_special_boxcox sample_normmax sample_data_ok
    (fun _ => true) [[1; 2; 3]; [4; 5; 6]] None = Raise ValueError.
Proof.
  assert (H : Forall (fun c : list Q => length c <> 2%nat)
                [[1; 2; 3]; [4; 5; 6]]).
  { constructor; [simpl; lia|]. constructor; [simpl; lia | constructor]. }
  split; [exact H|].
  destruct (boxcox_transform_one_column_only sample_special_boxcox
              sample_normmax sample_data_ok (fun _ => true)
              [[1; 2; 3]; [4; 5; 6]] H) as (H1 & H2 & _).
  split; [apply H1; discriminate | apply H2; simpl; lia].
Defined.

